(** * paper_algorithms.py: a shallow embedding of the geometry and masking core

    The development follows [src/paper_algs/paper_algorithms.py].  Tensors
    of floating-point numbers are modelled over exact real arithmetic
    ([R]); the window mask of the atom transformer, whose entries are
    half-integers, is modelled over the rationals ([Q]) so that it
    evaluates.  Python exceptions (failed [assert]s, shape errors of
    [rearrange], [view], [torch.concat] and broadcasting, attribute
    errors) are results in [option] or in an explicit error type; the
    non-finite results of a float division by zero are carried by
    [SmoothLDDTLoss.float_value].  Learned sub-modules whose weights are
    not fixed by the source are parameters of the models.

    Layout: the definitions come first, one module per class or function
    of the source; the theorems follow. *)

From Stdlib Require Import Reals Lra Lia List Bool Arith QArith Qabs.
Import ListNotations.

Set Implicit Arguments.

Local Open Scope R_scope.

(* ===================================================================== *)
(** * Part I: definitions                                                 *)
(* ===================================================================== *)

(** ** Three-dimensional vectors and 3x3 matrices

    Coordinates have a trailing axis of size 3; rotation and covariance
    matrices are 3x3.  A matrix is the triple of its rows. *)

Module Vec3.

Definition V3 : Type := (R * R * R)%type.
Definition M3 : Type := (V3 * V3 * V3)%type.

Definition zero : V3 := (0, 0, 0).

Definition add (u v : V3) : V3 :=
  let '(u0, u1, u2) := u in let '(v0, v1, v2) := v in
  (u0 + v0, u1 + v1, u2 + v2).

Definition sub (u v : V3) : V3 :=
  let '(u0, u1, u2) := u in let '(v0, v1, v2) := v in
  (u0 - v0, u1 - v1, u2 - v2).

(** [u * s] for a scalar [s] *)
Definition scale (s : R) (u : V3) : V3 :=
  let '(u0, u1, u2) := u in (u0 * s, u1 * s, u2 * s).

(** [u / s] for a scalar [s] *)
Definition divs (u : V3) (s : R) : V3 :=
  let '(u0, u1, u2) := u in (u0 / s, u1 / s, u2 / s).

(** [u * v] on tensors: the elementwise (Hadamard) product *)
Definition mul (u v : V3) : V3 :=
  let '(u0, u1, u2) := u in let '(v0, v1, v2) := v in
  (u0 * v0, u1 * v1, u2 * v2).

(** [u.dot(v)] *)
Definition dot (u v : V3) : R :=
  let '(u0, u1, u2) := u in let '(v0, v1, v2) := v in
  u0 * v0 + u1 * v1 + u2 * v2.

(** [torch.norm(u)]: the Euclidean norm *)
Definition norm (u : V3) : R := sqrt (dot u u).

(** the vector product, which the source never calls; it is what the
    frame construction of Algorithm 29 is compared with *)
Definition cross (u v : V3) : V3 :=
  let '(u0, u1, u2) := u in let '(v0, v1, v2) := v in
  (u1 * v2 - u2 * v1, u2 * v0 - u0 * v2, u0 * v1 - u1 * v0).

(** [u_i * v_j]: the outer product, one summand of [einsum('ni,nj->ij')] *)
Definition outer (u v : V3) : M3 :=
  let '(u0, u1, u2) := u in
  (scale u0 v, scale u1 v, scale u2 v).

Definition mzero : M3 := (zero, zero, zero).

Definition madd (A B : M3) : M3 :=
  let '(a0, a1, a2) := A in let '(b0, b1, b2) := B in
  (add a0 b0, add a1 b1, add a2 b2).

Definition identity : M3 := ((1, 0, 0), (0, 1, 0), (0, 0, 1)).

Definition diag (s : V3) : M3 :=
  let '(s0, s1, s2) := s in ((s0, 0, 0), (0, s1, 0), (0, 0, s2)).

Definition transpose (A : M3) : M3 :=
  let '((a00, a01, a02), (a10, a11, a12), (a20, a21, a22)) := A in
  ((a00, a10, a20), (a01, a11, a21), (a02, a12, a22)).

(** [einsum('j,jk->k', v, A)]: row vector times matrix *)
Definition vecmat (v : V3) (A : M3) : V3 :=
  let '(v0, v1, v2) := v in let '(a0, a1, a2) := A in
  add (add (scale v0 a0) (scale v1 a1)) (scale v2 a2).

(** [A v]: matrix times column vector *)
Definition matvec (A : M3) (v : V3) : V3 :=
  let '(a0, a1, a2) := A in (dot a0 v, dot a1 v, dot a2 v).

(** [einsum('ij,jk->ik', A, B)] *)
Definition matmul (A B : M3) : M3 :=
  let '(a0, a1, a2) := A in (vecmat a0 B, vecmat a1 B, vecmat a2 B).

(** [torch.det] *)
Definition det (A : M3) : R :=
  let '((a00, a01, a02), (a10, a11, a12), (a20, a21, a22)) := A in
  a00 * (a11 * a22 - a12 * a21)
  - a01 * (a10 * a22 - a12 * a20)
  + a02 * (a10 * a21 - a11 * a20).

(** [V[:, -1] *= -1]: the last column changes sign *)
Definition negate_last_column (A : M3) : M3 :=
  let '((a00, a01, a02), (a10, a11, a12), (a20, a21, a22)) := A in
  ((a00, a01, - a02), (a10, a11, - a12), (a20, a21, - a22)).

Definition orthogonal (A : M3) : Prop := matmul (transpose A) A = identity.

(** a proper rotation: orthogonal with determinant one *)
Definition rotation (A : M3) : Prop := orthogonal A /\ det A = 1.

End Vec3.

(** ** Algorithm 28: [WeightedRigidAlign]

    One batch element is a list of [n] points with a list of [n] weights;
    the batched tensors are lists of these.  [torch.svd] is a library
    routine, taken as a parameter [svd]: it returns [(U, S, V)] for its
    argument, and [is_svd] says what PyTorch documents about the result. *)

Module WeightedRigidAlign.
Import Vec3.

(** [(coords * weights.unsqueeze(-1)).sum(dim=1)] for one batch element *)
Fixpoint weighted_sum (coords : list V3) (weights : list R) : V3 :=
  match coords, weights with
  | x :: coords', w :: weights' => add (scale w x) (weighted_sum coords' weights')
  | _, _ => zero
  end.

(** [weights.sum(dim=1, keepdim=True)] *)
Definition total_weight (weights : list R) : R := fold_right Rplus 0 weights.

Definition centroid (coords : list V3) (weights : list R) : V3 :=
  divs (weighted_sum coords weights) (total_weight weights).

(** [coords - centroid.unsqueeze(1)] *)
Definition center (coords : list V3) (c : V3) : list V3 :=
  map (fun x => sub x c) coords.

(** [einsum('ni,nj->ij', true_centered * weights.unsqueeze(-1), pred_centered)] *)
Fixpoint covariance (true_centered : list V3) (weights : list R)
         (pred_centered : list V3) : M3 :=
  match true_centered, weights, pred_centered with
  | t :: ts, w :: ws, p :: ps => madd (outer (scale w t) p) (covariance ts ws ps)
  | _, _, _ => mzero
  end.

Definition cov_matrix (pred_coords true_coords : list V3) (weights : list R) : M3 :=
  covariance (center true_coords (centroid true_coords weights)) weights
             (center pred_coords (centroid pred_coords weights)).

(** what [torch.svd] returns for [A]: [A = U diag(S) V^T] with [U], [V]
    orthogonal and the singular values non-negative, in descending order *)
Definition is_svd (A : M3) (usv : M3 * V3 * M3) : Prop :=
  let '(U, Sigma, V) := usv in
  orthogonal U /\ orthogonal V /\
  A = matmul (matmul U (diag Sigma)) (transpose V) /\
  (let '(s0, s1, s2) := Sigma in s0 >= s1 /\ s1 >= s2 /\ s2 >= 0).

(** lines 1265-1272: [rot_matrix = U V]; where its determinant is
    negative, [V_fixed] is [V] with the last column negated and the
    entry of [rot_matrix] is overwritten with [U V_fixed] *)
Definition corrected_rotation (U V : M3) : M3 :=
  let rot_matrix := matmul U V in
  let det_mask := Rlt_dec (det rot_matrix) 0 in
  let V_fixed := if det_mask then negate_last_column V else V in
  if det_mask then matmul U V_fixed else rot_matrix.

Section Forward.
Variable svd : M3 -> M3 * V3 * M3.

(** the rotation matrix of one batch element, as line 1275 uses it *)
Definition rot_matrix (pred_coords true_coords : list V3) (weights : list R) : M3 :=
  let '(U, _, V) := svd (cov_matrix pred_coords true_coords weights) in
  corrected_rotation U V.

(** one batch element of [forward] *)
Definition forward1 (pred_coords true_coords : list V3) (weights : list R) : list V3 :=
  let pred_centroid := centroid pred_coords weights in
  let true_centroid := centroid true_coords weights in
  let pred_coords_centered := center pred_coords pred_centroid in
  let R_ := rot_matrix pred_coords true_coords weights in
  map (fun p => add (vecmat p R_) true_centroid) pred_coords_centered.

(** the batch: element [b] of the three tensors goes through [forward1] *)
Fixpoint forward (pred_coords true_coords : list (list V3)) (weights : list (list R))
  : list (list V3) :=
  match pred_coords, true_coords, weights with
  | p :: ps, t :: ts, w :: ws => forward1 p t w :: forward ps ts ws
  | _, _, _ => []
  end.
End Forward.

End WeightedRigidAlign.

(** ** Algorithms 29 and 30: coordinates in a local frame, alignment error

    [x] and the three frame atoms are 1-D tensors of size 3, as
    [torch.dot] needs them.  A scalar product [d.dot(e)] is a tensor of
    dimension zero, and [torch.concat] refuses such a tensor.  A raised
    exception is the left summand of the result. *)

Module Frames.
Import Vec3.

Definition frame : Type := (V3 * V3 * V3)%type.

Inductive exn : Type :=
| RuntimeError.  (** [zero-dimensional tensor cannot be concatenated],
                     shapes that do not broadcast *)

Definition result (A : Type) : Type := (exn + A)%type.

Definition bind {A B : Type} (x : result A) (f : A -> result B) : result B :=
  match x with inl e => inl e | inr a => f a end.

Notation "x <-- c ;; k" := (bind c (fun x => k))
  (at level 61, c at next level, right associativity).

(** a tensor of dimension zero (one number) or one (a row of numbers) *)
Inductive tensor : Type :=
| Dim0 (v : R)
| Dim1 (l : list R).

(** [torch.concat(tensors)] along axis 0 needs a non-empty list of
    tensors that have an axis *)
Fixpoint concat_entries (tensors : list tensor) : result (list R) :=
  match tensors with
  | [] => inr []
  | Dim0 _ :: _ => inl RuntimeError
  | Dim1 l :: rest => r <-- concat_entries rest ;; inr (l ++ r)
  end.

Definition concat (tensors : list tensor) : result tensor :=
  match tensors with
  | [] => inl RuntimeError
  | _ :: _ => r <-- concat_entries tensors ;; inr (Dim1 r)
  end.

(** lines 1282-1289: the vectors [(e1, e2, e3)] that the function builds *)
Definition frame_basis (phi : frame) : V3 * V3 * V3 :=
  let '(a, b, c) := phi in
  let w1 := divs (sub a b) (norm (sub a b)) in
  let w2 := divs (sub c b) (norm (sub c b)) in
  let e1 := divs (add w1 w2) (norm (add w1 w2)) in
  let e2 := divs (sub w2 w1) (norm (sub w2 w1)) in
  let e3 := mul e1 e2 in
  (e1, e2, e3).

(** line 1292, the list [[d.dot(e1), d.dot(e2), d.dot(e3)]]: Python
    evaluates its three entries before it calls [torch.concat] *)
Definition projections (x : V3) (phi : frame) : list tensor :=
  let '(a, b, c) := phi in
  let '(e1, e2, e3) := frame_basis phi in
  let d := sub x b in
  [Dim0 (dot d e1); Dim0 (dot d e2); Dim0 (dot d e3)].

Definition expressCoordinatesInFrame (x : V3) (phi : frame) : result tensor :=
  concat (projections x phi).

(** the default [eps=1e-8] *)
Definition default_eps : R := / 100000000.

(** [s - t] with broadcasting *)
Definition sub_tensor (s t : tensor) : result tensor :=
  match s, t with
  | Dim0 u, Dim0 v => inr (Dim0 (u - v))
  | Dim0 u, Dim1 m => inr (Dim1 (map (fun v => u - v) m))
  | Dim1 l, Dim0 v => inr (Dim1 (map (fun u => u - v) l))
  | Dim1 l, Dim1 m =>
      if (length l =? length m)%nat
      then inr (Dim1 (map (fun uv => fst uv - snd uv) (combine l m)))
      else match l, m with
           | [u], _ => inr (Dim1 (map (fun v => u - v) m))
           | _, [v] => inr (Dim1 (map (fun u => u - v) l))
           | _, _ => inl RuntimeError
           end
  end.

(** a function applied to every entry *)
Definition map_tensor (f : R -> R) (t : tensor) : tensor :=
  match t with
  | Dim0 v => Dim0 (f v)
  | Dim1 l => Dim1 (map f l)
  end.

Definition computeAlignmentError (x x_true : V3) (phi phi_true : frame) (eps : R)
  : result tensor :=
  x_bar <-- expressCoordinatesInFrame x phi ;;
  x_bar_true <-- expressCoordinatesInFrame x_true phi_true ;;
  diff <-- sub_tensor x_bar x_bar_true ;;
  inr (map_tensor (fun v => sqrt (v * v + eps)) diff).

(** [R x + t] on a point and on the three atoms of a frame *)
Definition rigid (Rm : M3) (t : V3) (x : V3) : V3 := add (matvec Rm x) t.

Definition rigid_frame (Rm : M3) (t : V3) (phi : frame) : frame :=
  let '(a, b, c) := phi in (rigid Rm t a, rigid Rm t b, rigid Rm t c).

(** what the specification describes: an orthonormal triple whose third
    vector is the vector product of the first two, and the projection of
    [x - b] onto it as the returned vector *)
Definition orthonormal (e1 e2 e3 : V3) : Prop :=
  dot e1 e1 = 1 /\ dot e2 e2 = 1 /\ dot e3 e3 = 1 /\
  dot e1 e2 = 0 /\ dot e1 e3 = 0 /\ dot e2 e3 = 0.

(** The construction as the specification words it, for comparison with
    the source: the third axis is the vector product of the first two. *)
Definition frame_basis_as_specified (phi : frame) : V3 * V3 * V3 :=
  let '(a, b, c) := phi in
  let w1 := divs (sub a b) (norm (sub a b)) in
  let w2 := divs (sub c b) (norm (sub c b)) in
  let e1 := divs (add w1 w2) (norm (add w1 w2)) in
  let e2 := divs (sub w2 w1) (norm (sub w2 w1)) in
  let e3 := cross e1 e2 in
  (e1, e2, e3).

Definition express_as_specified (x : V3) (phi : frame) : V3 :=
  let '(a, b, c) := phi in
  let '(e1, e2, e3) := frame_basis_as_specified phi in
  let d := sub x b in
  (dot d e1, dot d e2, dot d e3).

Definition error_as_specified (x x_true : V3) (phi phi_true : frame) (eps : R) : V3 :=
  let x_bar := express_as_specified x phi in
  let x_bar_true := express_as_specified x_true phi_true in
  let '(d0, d1, d2) := sub x_bar x_bar_true in
  (sqrt (d0 * d0 + eps), sqrt (d1 * d1 + eps), sqrt (d2 * d2 + eps)).

End Frames.

(** ** Algorithm 27: [SmoothLDDTLoss]

    The tensors are [pred_coords], [true_coords] of shape [(b, n, 3)] and
    [is_dna], [is_rna] of shape [(b, n)], as the docstring gives them; an
    entry of a tensor is read by its index.  [n] is [pred_coords.shape[1]],
    as in the [torch.eye] call. *)

Module SmoothLDDTLoss.
Import Vec3.

Record config := { nucleic_acid_cutoff : R; other_cutoff : R }.

Definition default_config : config :=
  {| nucleic_acid_cutoff := 30; other_cutoff := 15 |}.

Definition sigmoid (x : R) : R := 1 / (1 + exp (- x)).

Definition Rltb (x y : R) : bool := if Rlt_dec x y then true else false.

Definition b2r (b : bool) : R := if b then 1 else 0.

(** [torch.cdist(coords, coords)[i, j]] *)
Definition dists (coords : list V3) (i j : nat) : R :=
  norm (sub (nth i coords zero) (nth j coords zero)).

Section Element.
Variable cfg : config.
Variables pred_coords true_coords : list V3.
Variables is_dna is_rna : list bool.

Definition dist_diff (i j : nat) : R :=
  Rabs (dists true_coords i j - dists pred_coords i j).

Definition eps (i j : nat) : R :=
  (sigmoid (1/2 - dist_diff i j) + sigmoid (1 - dist_diff i j)
   + sigmoid (2 - dist_diff i j) + sigmoid (4 - dist_diff i j)) / 4.

Definition is_nucleotide (i : nat) : bool :=
  nth i is_dna false || nth i is_rna false.

Definition is_nucleotide_pair (i j : nat) : bool :=
  is_nucleotide i && is_nucleotide j.

Definition inclusion_radius (i j : nat) : bool :=
  if is_nucleotide_pair i j
  then Rltb (dists true_coords i j) (nucleic_acid_cutoff cfg)
  else Rltb (dists true_coords i j) (other_cutoff cfg).

(** [logical_and(inclusion_radius, logical_not(eye(n)))] *)
Definition mask (i j : nat) : bool := inclusion_radius i j && negb (i =? j)%nat.

Definition n_atoms : nat := length pred_coords.

(** [.sum(dim=(-1, -2))] of a real and of a boolean [n x n] tensor *)
Definition sum2 (n : nat) (f : nat -> nat -> R) : R :=
  fold_right Rplus 0
    (map (fun i => fold_right Rplus 0 (map (f i) (seq 0 n))) (seq 0 n)).

Definition count2 (n : nat) (f : nat -> nat -> bool) : nat :=
  fold_right Nat.add 0%nat
    (map (fun i => length (filter (f i) (seq 0 n))) (seq 0 n)).

Definition lddt_sum : R := sum2 n_atoms (fun i j => eps i j * b2r (mask i j)).
Definition lddt_count : nat := count2 n_atoms mask.

(** [lddt_count.clamp(min=1)] *)
Definition clamped_count : nat := Nat.max lddt_count 1.

Definition lddt : R := lddt_sum / INR clamped_count.
End Element.

(** [lddt.mean()] over the batch axis, as a real number: its value on a
    non-empty batch ([mean_checked] below carries the empty batch) *)
Definition mean (l : list R) : R := fold_right Rplus 0 l / INR (length l).

Definition lddt_batch (cfg : config) (pred_coords true_coords : list (list V3))
           (is_dna is_rna : list (list bool)) : list R :=
  map (fun b => lddt cfg (nth b pred_coords []) (nth b true_coords [])
                     (nth b is_dna []) (nth b is_rna []))
      (seq 0 (length pred_coords)).

Definition forward (cfg : config) (pred_coords true_coords : list (list V3))
           (is_dna is_rna : list (list bool)) : R :=
  1 - mean (lddt_batch cfg pred_coords true_coords is_dna is_rna).

(** the value of the four-threshold smooth step at distance difference 0 *)
Definition eps_at_zero : R :=
  (sigmoid (1/2) + sigmoid 1 + sigmoid 2 + sigmoid 4) / 4.

(** *** The two divisions, with a zero divisor

    [lddt], [mean] and [forward] above give the loss as a real number,
    which is what the code returns when no divisor is zero.  Below, the
    divisions of lines 1219 and 1221 are carried out as a float division
    does: a non-zero number over zero is an infinity and zero over zero
    is nan, and the later sum and difference propagate these values.
    Rounding is not modelled. *)










End SmoothLDDTLoss.

(** ** Tensors as nested lists

    A tensor of shape [(n, d)] is a list of [n] rows of [d] reals, one of
    shape [(b, n, d)] a list of [b] of these, and so on.  Operations that
    raise on a shape mismatch return [None]; an elementwise operation needs
    operands of the same shape (broadcasting of axes of size one is not
    used by the calls that are modelled with it). *)

Module Tensor.

Definition Vec : Type := list R.
Definition T2 : Type := list Vec.
Definition T3 : Type := list T2.
Definition T4 : Type := list T3.
Definition Mask2 : Type := list (list bool).

Definition bind {A B : Type} (x : option A) (f : A -> option B) : option B :=
  match x with Some a => f a | None => None end.

Notation "x <- c ;; k" := (bind c (fun x => k))
  (at level 61, c at next level, right associativity).

(** [assert cond] *)
Definition assert (cond : bool) : option unit := if cond then Some tt else None.

Fixpoint traverse {A B : Type} (f : A -> option B) (l : list A) : option (list B) :=
  match l with
  | [] => Some []
  | a :: l' => b <- f a ;; bs <- traverse f l' ;; Some (b :: bs)
  end.

(** an elementwise binary operation on two lists of the same length *)
Fixpoint zip_with {A B C : Type} (f : A -> B -> option C)
         (xs : list A) (ys : list B) : option (list C) :=
  match xs, ys with
  | [], [] => Some []
  | x :: xs', y :: ys' => c <- f x y ;; cs <- zip_with f xs' ys' ;; Some (c :: cs)
  | _, _ => None
  end.

Definition vadd (u v : Vec) : option Vec := zip_with (fun x y => Some (x + y)) u v.
Definition add2 (a b : T2) : option T2 := zip_with vadd a b.
(** [a + b] on tensors of shape [(b, n, d)] *)
Definition add3 (a b : T3) : option T3 := zip_with add2 a b.

Definition dotl (u v : Vec) : R :=
  fold_right Rplus 0 (map (fun '(x, y) => x * y) (combine u v)).

(** [nn.Linear(d_in, d_out, bias=False)] with weight [W] of shape
    [(d_out, d_in)], on the last axis *)
Definition linear (W : T2) (x : Vec) : Vec := map (fun row => dotl row x) W.
Definition linear3 (W : T2) (x : T3) : T3 := map (map (linear W)) x.

(** [nn.ReLU] *)
Definition relu (x : Vec) : Vec := map (Rmax 0) x.

(** the blocks of [w] consecutive entries of [l] *)
Fixpoint chunks {A : Type} (fuel w : nat) (l : list A) : list (list A) :=
  match fuel, l with
  | S fuel', _ :: _ => firstn w l :: chunks fuel' w (skipn w l)
  | _, _ => []
  end.

(** splitting an axis of length [n * w] into [(n, w)]; the length has to
    be a multiple of [w] *)
Definition windows {A : Type} (w : nat) (l : list A) : option (list (list A)) :=
  _ <- assert (negb (w =? 0)%nat && (length l mod w =? 0)%nat) ;;
  Some (chunks (length l) w l).

(** [x.masked_fill(m.unsqueeze(-1), 0.)] on the rows of one window: a row
    whose flag in [m] is set becomes zero *)
Definition masked_fill (m : list bool) (rows : T2) : option T2 :=
  zip_with (fun (b : bool) row => Some (if b then map (fun _ => 0) row else row)) m rows.

(** [rows.sum(dim=-2)] of a non-empty window of rows *)
Fixpoint sum_rows (rows : T2) : option Vec :=
  match rows with
  | [] => None
  | [r] => Some r
  | r :: rows' => s <- sum_rows rows' ;; vadd r s
  end.

(** [m.float().sum(dim=-1, keepdim=True)] *)
Definition count_true (m : list bool) : R := INR (length (filter (fun b => b) m)).

(** [num / den] with [den] of trailing shape 1 *)
Definition div_scalar (num : Vec) (den : R) : Vec := map (fun x => x / den) num.

(** [m.any(dim=-1).all()] on a windowed mask *)
Definition every_window_has_valid (m : list (list (list bool))) : bool :=
  forallb (forallb (existsb (fun b => b))) m.

End Tensor.

(** ** Algorithm 5: [AtomToTokenPooler] *)

Module AtomToTokenPooler.
Import Tensor.

Record t := {
  proj_weight : T2;            (** [LinearNoBias(dim, dim_out)] of [self.proj] *)
  atoms_per_window : nat
}.

(** [self.proj]: the linear map followed by [ReLU] *)
Definition proj (self : t) (x : Vec) : Vec := relu (linear (proj_weight self) x).

(** lines 191-196 for one window *)
Definition pool_window (feats : T2) (m : list bool) : option Vec :=
  filled <- masked_fill (map negb m) feats ;;
  num <- sum_rows filled ;;
  let den := count_true m in
  Some (div_scalar num den).

Definition forward (self : t) (atom_feats : T3) (atom_mask : Mask2) : option T3 :=
  let w := atoms_per_window self in
  let atom_feats := map (map (proj self)) atom_feats in
  windowed_atom_feats <- traverse (windows w) atom_feats ;;
  windowed_atom_mask <- traverse (windows w) atom_mask ;;
  _ <- assert (every_window_has_valid windowed_atom_mask) ;;
  zip_with (zip_with pool_window) windowed_atom_feats windowed_atom_mask.

End AtomToTokenPooler.

(** ** Algorithm 23: [DiffusionTransformer]

    A layer is the pair of its two [ConditionWrapper]s, each a function of
    the arguments that [forward] passes to it. *)

Module DiffusionTransformer.
Import Tensor.

Record layer := {
  attn : T3 -> T3 -> T4 -> Mask2 -> T3;     (** [(noised, cond, pairwise_repr, mask)] *)
  transition : T3 -> T3 -> T3               (** [(noised, cond)] *)
}.

Definition t : Type := list layer.

Fixpoint forward (layers : t) (noised_repr single_repr : T3) (pairwise_repr : T4)
         (mask : Mask2) : option T3 :=
  match layers with
  | [] => Some noised_repr
  | l :: layers' =>
      let attn_out := attn l noised_repr single_repr pairwise_repr mask in
      let ff_out := transition l noised_repr single_repr in
      s <- add3 noised_repr attn_out ;;
      noised_repr' <- add3 s ff_out ;;
      forward layers' noised_repr' single_repr pairwise_repr mask
  end.

End DiffusionTransformer.

(** ** Algorithm 20: [DiffusionModule]

    The conditioners, normalisations and output head are functions of their
    inputs; the three linear maps without bias are their weight matrices;
    the three transformers are [DiffusionTransformer]s. *)

Module DiffusionModule.
Import Tensor.

Record t := {
  atoms_per_window : nat;
  single_conditioner : list R -> T3 -> T3 -> T3;
  pairwise_conditioner : T4 -> T4 -> T4;
  atom_pos_to_atom_feat_cond : T2;
  atom_encoder : DiffusionTransformer.t;
  cond_tokens_with_cond_single : T3 -> T3;
  token_transformer : DiffusionTransformer.t;
  attended_token_norm : T3 -> T3;
  tokens_to_atom_decoder_input_cond : T2;
  atom_decoder : DiffusionTransformer.t;
  atom_feat_to_atom_pos_update : T3 -> T3
}.

Record inputs := {
  noised_atom_pos : T3;
  atom_feats : T3;
  atompair_feats : T4;
  atom_mask : Mask2;
  times : list R;
  mask : Mask2;
  single_trunk_repr : T3;
  single_inputs_repr : T3;
  pairwise_trunk : T4;
  pairwise_rel_pos_feats : T4
}.

(** [x.shape[1]] of a tensor with a leading batch axis *)
Definition shape1 {A : Type} (x : list (list A)) : nat :=
  match x with [] => 0%nat | e :: _ => length e end.

(** [x.view(-1, n, w, d)] on a tensor of shape [(b, n_atom, d)], and
    [m.view(-1, n, w)] on one of shape [(b, n_atom)]: the rows of all
    batch elements, in order, in windows of [w], the windows in groups
    of [n] *)
Definition view_windows {A : Type} (n w : nat) (x : list (list A))
  : option (list (list (list A))) :=
  ws <- windows w (concat x) ;;
  windows n ws.

(** lines 889-894 for one window: the rows whose mask flag is set are
    zeroed, the rest are summed and divided by the number of set flags *)
Definition pool_window (feats : T2) (m : list bool) : option Vec :=
  filled <- masked_fill m feats ;;
  num <- sum_rows filled ;;
  let den := count_true m in
  Some (div_scalar num den).

(** lines 883-894: the inline pooling of atom features into tokens *)
Definition pool_tokens (w n_token : nat) (atom_feats : T3) (atom_mask : Mask2)
  : option T3 :=
  windowed_atom_feats <- view_windows n_token w atom_feats ;;
  windowed_atom_mask <- view_windows n_token w atom_mask ;;
  _ <- assert (every_window_has_valid windowed_atom_mask) ;;
  zip_with (zip_with pool_window) windowed_atom_feats windowed_atom_mask.

(** [x.unsqueeze(2).repeat(1, 1, w, 1).view(-1, n * w, d)]: every token
    row [w] times in a row *)
Definition broadcast_to_atoms (w : nat) (x : T3) : T3 :=
  map (fun tokens => concat (map (fun row => repeat row w) tokens)) x.

Definition forward (self : t) (i : inputs) : option T3 :=
  let w := atoms_per_window self in
  _ <- assert (negb (w =? 0)%nat && (shape1 (noised_atom_pos i) mod w =? 0)%nat) ;;
  let conditioned_single_repr :=
    single_conditioner self (times i) (single_trunk_repr i) (single_inputs_repr i) in
  let conditioned_pairwise_repr :=
    pairwise_conditioner self (pairwise_trunk i) (pairwise_rel_pos_feats i) in
  atom_feats <- add3 (linear3 (atom_pos_to_atom_feat_cond self) (noised_atom_pos i))
                     (atom_feats i) ;;
  atom_feats <- DiffusionTransformer.forward (atom_encoder self) atom_feats atom_feats
                  (atompair_feats i) (atom_mask i) ;;
  let atom_feats_skip := atom_feats in
  tokens <- pool_tokens w (shape1 (mask i)) atom_feats (atom_mask i) ;;
  tokens <- add3 (cond_tokens_with_cond_single self conditioned_single_repr) tokens ;;
  (* the result of the token transformer is not bound to a name *)
  _ <- DiffusionTransformer.forward (token_transformer self) tokens
         conditioned_single_repr conditioned_pairwise_repr (mask i) ;;
  let tokens := attended_token_norm self tokens in
  let atom_decoder_input := linear3 (tokens_to_atom_decoder_input_cond self) tokens in
  let atom_decoder_input := broadcast_to_atoms w atom_decoder_input in
  atom_decoder_input <- add3 atom_decoder_input atom_feats_skip ;;
  (* [atom_decoder_input] is not read below *)
  atom_feats <- DiffusionTransformer.forward (atom_decoder self) atom_feats atom_feats
                  (atompair_feats i) (atom_mask i) ;;
  let atom_pos_update := atom_feat_to_atom_pos_update self atom_feats in
  Some atom_pos_update.

(** Steps 3 to 6 of the specification's contract, for comparison with
    [forward]: the tokens that are normalised and broadcast are the
    output of the token transformer, and the decoder runs on the
    broadcast tokens plus the skip connection. *)
Definition forward_as_specified (self : t) (i : inputs) : option T3 :=
  let w := atoms_per_window self in
  _ <- assert (negb (w =? 0)%nat && (shape1 (noised_atom_pos i) mod w =? 0)%nat) ;;
  let conditioned_single_repr :=
    single_conditioner self (times i) (single_trunk_repr i) (single_inputs_repr i) in
  let conditioned_pairwise_repr :=
    pairwise_conditioner self (pairwise_trunk i) (pairwise_rel_pos_feats i) in
  atom_feats <- add3 (linear3 (atom_pos_to_atom_feat_cond self) (noised_atom_pos i))
                     (atom_feats i) ;;
  atom_feats <- DiffusionTransformer.forward (atom_encoder self) atom_feats atom_feats
                  (atompair_feats i) (atom_mask i) ;;
  let atom_feats_skip := atom_feats in
  tokens <- pool_tokens w (shape1 (mask i)) atom_feats (atom_mask i) ;;
  tokens <- add3 (cond_tokens_with_cond_single self conditioned_single_repr) tokens ;;
  tokens <- DiffusionTransformer.forward (token_transformer self) tokens
              conditioned_single_repr conditioned_pairwise_repr (mask i) ;;
  let tokens := attended_token_norm self tokens in
  let atom_decoder_input := linear3 (tokens_to_atom_decoder_input_cond self) tokens in
  let atom_decoder_input := broadcast_to_atoms w atom_decoder_input in
  atom_decoder_input <- add3 atom_decoder_input atom_feats_skip ;;
  atom_feats <- DiffusionTransformer.forward (atom_decoder self) atom_decoder_input
                  atom_feats (atompair_feats i) (atom_mask i) ;;
  let atom_pos_update := atom_feat_to_atom_pos_update self atom_feats in
  Some atom_pos_update.

End DiffusionModule.

(** ** Algorithm 7: [AtomTransformer], the local attention bias

    The positions, the centres and the two half-widths are multiples of
    one half, on which float32 arithmetic is exact: they are rationals
    here.  [beta_lm] is the bias tensor that [forward] passes on to the
    diffusion transformer. *)

Module AtomTransformer.
Local Open Scope Q_scope.

Record t := {
  n_queries : Q;
  n_keys : Q;
  subset_centres : list Q
}.

(** [__init__] with [n_queries=32], [n_keys=128]; the default centres are
    [[15.5, 47.5, 79.5]] *)
Definition default_centres : list Q := [31 # 2; 95 # 2; 159 # 2].

Definition init (subset_centres : option (list Q)) : t :=
  {| n_queries := 32;
     n_keys := 128;
     subset_centres := match subset_centres with
                       | None => default_centres
                       | Some c => c
                       end |}.

(** [torch.arange(n, dtype=torch.float32)] *)
Definition arange (n : nat) : list Q := map (fun k => inject_Z (Z.of_nat k)) (seq 0 n).

Definition Qltb (x y : Q) : bool := negb (Qle_bool y x).

(** a binary operation on tensors of shape [(n, 1)] and [(1, c, 1)]: the
    axis of length [n] is aligned with the axis of length [c], so the
    result has shape [(1, k, 1)] where [k] is the common length, or the
    other length when one of them is 1; other lengths do not broadcast *)
Definition broadcast {A B C : Type} (f : A -> B -> C) (xs : list A) (ys : list B)
  : option (list C) :=
  if (length xs =? length ys)%nat
  then Some (map (fun '(x, y) => f x y) (combine xs ys))
  else match xs, ys with
       | [x], _ => Some (map (f x) ys)
       | _, [y] => Some (map (fun x => f x y) xs)
       | _, _ => None
       end.

(** the fill value of [torch.where], [-1e10] *)
Definition masked_bias : Q := - (10000000000 # 1).

(** lines 323-332; the result has shape [(1, 1, k, 1)] and is given by
    its [k] entries *)
Definition beta_lm (self : t) (n : nat) : option (list Q) :=
  let l := arange n in
  let m := l in
  let c := subset_centres self in
  match broadcast (fun l c => Qltb (Qabs (l - c)) (n_queries self / 2)) l c,
        broadcast (fun m c => Qltb (Qabs (m - c)) (n_keys self / 2)) m c with
  | Some mask_queries, Some mask_keys =>
      (* shape (1, k, k, 1): entry [i][j] is [mask_queries[i] & mask_keys[j]] *)
      let mask := map (fun q => map (fun k => q && k) mask_keys) mask_queries in
      (* [mask.any(dim=1, keepdim=True)]: over the first of the two axes *)
      let any_dim1 :=
        map (fun j => existsb (fun row => nth j row false) mask)
            (seq 0 (length mask_keys)) in
      Some (map (fun b : bool => if b then 0 else masked_bias) any_dim1)
  | _, _ => None
  end.

End AtomTransformer.

(** ** Algorithms 12 and 13: construction of [TriangleMultiplication]

    A [nn.Linear] module holds a weight and, when built with [bias=True],
    a bias; built with [bias=False] its [bias] attribute is [None].  The
    initial values that PyTorch draws at random are the parameter
    [init_weight].  A raised exception is the left summand of the result. *)

Module TriangleMultiplication.
Import Tensor.

Inductive exn : Type :=
| AttributeError   (** ['NoneType' object has no attribute 'fill_'] *)
| ValueError.

Definition result (A : Type) : Type := (exn + A)%type.

Definition ret {A : Type} (a : A) : result A := inr a.

Definition bind {A B : Type} (x : result A) (f : A -> result B) : result B :=
  match x with inl e => inl e | inr a => f a end.

Notation "x <-- c ;; k" := (bind c (fun x => k))
  (at level 61, c at next level, right associativity).

Record Linear_ := { weight : T2; bias : option Vec }.

Section Init.
(** the freshly initialised weight of shape [(d_out, d_in)] *)
Variable init_weight : nat -> nat -> T2.

(** [LinearNoBias = partial(nn.Linear, bias=False)] *)
Definition LinearNoBias (d_in d_out : nat) : Linear_ :=
  {| weight := init_weight d_out d_in; bias := None |}.

(** [nn.init.constant_(tensor, val)] is [tensor.fill_(val)], which
    needs a tensor *)
Definition constant_ {A : Type} (fill : A -> R -> A) (tensor : option A) (val : R)
  : result A :=
  match tensor with
  | Some x => ret (fill x val)
  | None => inl AttributeError
  end.

Definition fill_vec (x : Vec) (val : R) : Vec := map (fun _ => val) x.
Definition fill_mat (x : T2) (val : R) : T2 := map (fun row => fill_vec row val) x.

(** the body of the loop at lines 489-491 for one gate *)
Definition init_gate (gate : Linear_) : result Linear_ :=
  w <-- constant_ fill_mat (Some (weight gate)) 0 ;;
  b <-- constant_ fill_vec (bias gate) 1 ;;
  ret {| weight := w; bias := Some b |}.

Fixpoint init_gates (gates : list Linear_) : result (list Linear_) :=
  match gates with
  | [] => ret []
  | g :: gates' =>
      g' <-- init_gate g ;; gs <-- init_gates gates' ;; ret (g' :: gs)
  end.

Inductive mix : Type := outgoing | incoming | other_mix.

Inductive einsum_eq : Type :=
| ik_jk_ij    (** ['... i k d, ... j k d -> ... i j d'] *)
| kj_ki_ij.   (** ['... k j d, ... k i d -> ... i j d'] *)

Record t := {
  left_proj : Linear_;
  right_proj : Linear_;
  left_gate : Linear_;
  right_gate : Linear_;
  out_gate : Linear_;
  mix_einsum_eq : option einsum_eq;
  to_out : Linear_;
  dropout : R
}.

(** [__init__(dim, dim_hidden=None, mix='incoming', dropout=0.0)] *)
Definition init (dim : nat) (dim_hidden : option nat) (mix_ : mix) (dropout_ : R)
  : result t :=
  let dim_hidden := match dim_hidden with Some h => h | None => dim end in
  let left_proj_ := LinearNoBias dim dim_hidden in
  let right_proj_ := LinearNoBias dim dim_hidden in
  let left_gate_ := LinearNoBias dim dim_hidden in
  let right_gate_ := LinearNoBias dim dim_hidden in
  let out_gate_ := LinearNoBias dim dim_hidden in
  gates <-- init_gates [left_gate_; right_gate_; out_gate_] ;;
  match gates with
  | [lg; rg; og] =>
      let eq := match mix_ with
                | outgoing => Some ik_jk_ij
                | incoming => Some kj_ki_ij
                | other_mix => None
                end in
      ret {| left_proj := left_proj_; right_proj := right_proj_;
             left_gate := lg; right_gate := rg; out_gate := og;
             mix_einsum_eq := eq;
             to_out := LinearNoBias dim_hidden dim;
             dropout := dropout_ |}
  | _ => inl ValueError
  end.
End Init.

End TriangleMultiplication.

(** ** Algorithm 24: [AttentionPairBias]

    The arguments of [forward] are references to tensor objects that the
    caller keeps: the model threads a store, a list of tensor values
    indexed by reference, through the call.  [self.attn] is the [Attention]
    module of [attention.py], which is not part of the sources at hand. *)

Module AttentionPairBias.
Import Tensor.

Definition loc : Type := nat.

Inductive value : Type :=
| Rank3 (x : T3)
| Rank4 (x : T4).

Definition store : Type := list value.

Definition shape (v : value) : list nat :=
  match v with
  | Rank3 x =>
      [length x; length (hd [] x); length (hd [] (hd [] x))]
  | Rank4 x =>
      [length x; length (hd [] x); length (hd [] (hd [] x));
       length (hd [] (hd [] (hd [] x)))]
  end.

(** a new tensor object; its reference is the next free one *)
Definition alloc (v : value) (s : store) : loc * store := (length s, s ++ [v]).

Record t := {
  norm_weight : Vec;           (** [nn.LayerNorm(dim_pair)] *)
  norm_bias : Vec;
  norm_eps : R;
  to_attn_bias_linear : T2     (** [nn.Linear(dim_pair, heads, bias=False)] *)
}.

Definition mean (x : Vec) : R := fold_right Rplus 0 x / INR (length x).

(** [nn.LayerNorm] on one row of the last axis *)
Definition layer_norm (self : t) (x : Vec) : Vec :=
  let mu := mean x in
  let var := mean (map (fun v => (v - mu) * (v - mu)) x) in
  map (fun '(v, (g, b)) => (v - mu) / sqrt (var + norm_eps self) * g + b)
      (combine x (combine (norm_weight self) (norm_bias self))).

(** [Rearrange('... i j h -> ... h i j')] for one batch element *)
Definition rearrange_ijh_hij (heads : nat) (x : T3) : T3 :=
  map (fun h => map (map (fun v => nth h v 0)) x) (seq 0 heads).

(** [self.to_attn_bias]: normalise, project to one scalar per head, move
    the head axis in front of the two token axes *)
Definition to_attn_bias (self : t) (pairwise_repr : T4) : T4 :=
  map (fun x =>
         rearrange_ijh_hij (length (to_attn_bias_linear self))
           (map (map (fun v => linear (to_attn_bias_linear self) (layer_norm self v))) x))
      pairwise_repr.

(** [bias + attn_bias], where [attn_bias] is either the float [0.0] or a
    tensor [(b, i, j)] with an axis of size one inserted for the heads *)
Definition add_attn_bias (bias : T4) (attn_bias : option T3) : option T4 :=
  match attn_bias with
  | None => Some (map (map (map (map (fun x => x + 0)))) bias)
  | Some extra =>
      zip_with (fun per_head e => traverse (fun m => add2 m e) per_head) bias extra
  end.

Section Forward.
(** [self.attn(single_repr, attn_bias=attn_bias, **kwargs)]: the
    references it is given, the store before, the reference of its
    result and the store after *)
Variable attn : loc -> loc -> list loc -> store -> option (loc * store).

Definition forward (self : t) (single_repr pairwise_repr : loc)
           (attn_bias : option loc) (kwargs : list loc) (s : store)
  : option (loc * store) :=
  attn_bias_value <-
    match attn_bias with
    | Some l => match nth_error s l with
                | Some (Rank3 x) => Some (Some x)
                | _ => None
                end
    | None => Some None
    end ;;
  pairwise <- match nth_error s pairwise_repr with
              | Some (Rank4 x) => Some x
              | _ => None
              end ;;
  bias <- add_attn_bias (to_attn_bias self pairwise) attn_bias_value ;;
  let '(bias_ref, s1) := alloc (Rank4 bias) s in
  attn single_repr bias_ref kwargs s1.
End Forward.

(** Modelled from the spec: [Attention.forward] of [attention.py], the
    scaled-dot-product attention consumed as a capability.  It returns a
    new tensor of the shape of its primary signal, and of the tensor
    objects that exist when it is called it can change only those it is
    handed. *)
Definition attention_contract
           (attn : loc -> loc -> list loc -> store -> option (loc * store)) : Prop :=
  forall single bias kwargs s out s',
    attn single bias kwargs s = Some (out, s') ->
    (forall l, (l < length s)%nat -> ~ In l (single :: bias :: kwargs) ->
               nth_error s' l = nth_error s l) /\
    (forall v_in, nth_error s single = Some v_in ->
                  exists v_out, nth_error s' out = Some v_out /\
                                shape v_out = shape v_in).

(** an attention that writes to no tensor object that exists when it is
    called, as a pure computation does *)
Definition attention_read_only
           (attn : loc -> loc -> list loc -> store -> option (loc * store)) : Prop :=
  forall single bias kwargs s out s',
    attn single bias kwargs s = Some (out, s') ->
    forall l, (l < length s)%nat -> nth_error s' l = nth_error s l.

End AttentionPairBias.

(** ** Algorithm 4: [one_hot]

    [x] is a scalar and [bins] a 1-D tensor; both are rationals here so
    that the nearest bin is computed.  [torch.argmin] returns the index of
    the first minimal value and raises on an empty tensor. *)

Module OneHot.
Local Open Scope Q_scope.

(** the index of the first minimal entry of [l], scanning from index [i]
    with the least value [best] seen so far at index [best_i] *)
Fixpoint argmin_from (best : Q) (best_i i : nat) (l : list Q) : nat :=
  match l with
  | [] => best_i
  | y :: l' =>
      if Qlt_le_dec y best
      then argmin_from y i (S i) l'
      else argmin_from best best_i (S i) l'
  end.

(** [torch.argmin] of a 1-D tensor *)
Definition argmin (l : list Q) : option nat :=
  match l with
  | [] => None
  | y :: l' => Some (argmin_from y 0 1 l')
  end.

(** [p[b] = v]; an index out of range raises *)
Fixpoint set_item (p : list Q) (b : nat) (v : Q) : option (list Q) :=
  match p, b with
  | [], _ => None
  | _ :: p', O => Some (v :: p')
  | a :: p', S b' =>
      match set_item p' b' v with
      | Some q => Some (a :: q)
      | None => None
      end
  end.

Definition one_hot (x : Q) (bins : list Q) : option (list Q) :=
  let p := repeat 0 (length bins) in
  match argmin (map (fun c => Qabs (x - c)) bins) with
  | Some b => set_item p b 1
  | None => None
  end.

End OneHot.

(** ** Algorithm 22 and the noise level of [SingleConditioning]

    [FourierEmbedding.proj] is [Linear(1, dim)]: one weight and one bias
    per output component. *)

Module FourierEmbedding.

Record t := { proj_weight : list R; proj_bias : list R }.

(** [self.proj(times.unsqueeze(-1))] for one time *)
Definition rand_proj (self : t) (time : R) : list R :=
  map (fun '(w, b) => time * w + b) (combine (proj_weight self) (proj_bias self)).

Definition forward (self : t) (times : list R) : list (list R) :=
  map (fun time => map (fun v => cos (2 * PI * v)) (rand_proj self time)) times.

(** line 1014 of [SingleConditioning.forward]: the argument of the Fourier
    embedding, [0.25 * log(clamp(times / sigma_data, min=eps))] *)
Definition noise_level (sigma_data eps : R) (time : R) : R :=
  1/4 * ln (Rmax (time / sigma_data) eps).

(** the default [eps=1e-20] *)
Definition default_eps : R := / 100000000000000000000.

End FourierEmbedding.

(** ** Initial parameters of [AttentionPairBias] and of the gate of
    [ConditionWrapper] *)

Module Initialisation.
Import Tensor.

(** [AttentionPairBias.__init__]: a [LayerNorm(dim_pair)] with its default
    weight 1, bias 0 and [eps=1e-5], and the linear map to the heads with
    its weight set to zero by [nn.init.zeros_] *)
Definition attention_pair_bias (heads dim_pair : nat) : AttentionPairBias.t :=
  {| AttentionPairBias.norm_weight := repeat 1 dim_pair;
     AttentionPairBias.norm_bias := repeat 0 dim_pair;
     AttentionPairBias.norm_eps := / 100000;
     AttentionPairBias.to_attn_bias_linear := repeat (repeat 0 dim_pair) heads |}.

(** [ConditionWrapper.to_adaln_zero_gamma]: [nn.Linear(dim_cond, dim)]
    followed by [nn.Sigmoid] *)
Record adaln_zero_gamma := { gamma_weight : T2; gamma_bias : Vec }.

Definition to_adaln_zero_gamma (g : adaln_zero_gamma) (cond : Vec) : Vec :=
  map (fun '(v, b) => SmoothLDDTLoss.sigmoid (v + b))
      (combine (linear (gamma_weight g) cond) (gamma_bias g)).

(** lines 935-936: the weight is zeroed and the bias is set to
    [adaln_zero_bias_init_value], by default [-2] *)
Definition init_adaln_zero_gamma (dim dim_cond : nat) (bias_init_value : R)
  : adaln_zero_gamma :=
  {| gamma_weight := repeat (repeat 0 dim_cond) dim;
     gamma_bias := repeat bias_init_value dim |}.

End Initialisation.

(** ** Shapes and auxiliary notions used to state properties *)

Module TensorShape.
Import Tensor.

(** every entry of a tensor of shape [(b, n, d)] is 0 *)
Definition all_zero3 (a : T3) : Prop :=
  Forall (Forall (Forall (fun x => x = 0))) a.

Definition all_zero4 (a : T4) : Prop := Forall all_zero3 a.

End TensorShape.

Module ProofNotions.
Import Vec3.

(** the transposed matrix of cofactors of a 3x3 matrix *)
Definition adjugate (A : M3) : M3 :=
  let '((a00, a01, a02), (a10, a11, a12), (a20, a21, a22)) := A in
  ((a11 * a22 - a12 * a21, a02 * a21 - a01 * a22, a01 * a12 - a02 * a11),
   (a12 * a20 - a10 * a22, a00 * a22 - a02 * a20, a02 * a10 - a00 * a12),
   (a10 * a21 - a11 * a20, a01 * a20 - a00 * a21, a00 * a11 - a01 * a10)).

Definition mscale (s : R) (A : M3) : M3 :=
  let '(a0, a1, a2) := A in (scale s a0, scale s a1, scale s a2).

(** index [b] holds the first least entry of [l] *)
Definition least_at (l : list Q) (b : nat) : Prop :=
  (b < length l)%nat /\
  (forall j, (j < length l)%nat -> (nth b l 0 <= nth j l 0)%Q) /\
  (forall j, (j < b)%nat -> (nth b l 0 < nth j l 0)%Q).

End ProofNotions.

(** ** Concrete inputs used by the examples of Part II *)

Module Samples.
Import Vec3.

(** *** Algorithm 28: a mirrored octahedron

    The true points are the predicted ones with the third coordinate
    negated, so the covariance is [diag (18, 8, -2)] and the uncorrected
    product [U V] of its decomposition is a reflection. *)
Definition octahedron : list V3 :=
  [(3, 0, 0); (-3, 0, 0); (0, 2, 0); (0, -2, 0); (0, 0, 1); (0, 0, -1)].
Definition mirrored_octahedron : list V3 :=
  [(3, 0, 0); (-3, 0, 0); (0, 2, 0); (0, -2, 0); (0, 0, -1); (0, 0, 1)].
Definition unit_weights : list R := [1; 1; 1; 1; 1; 1].
Definition mirror_svd (_ : M3) : M3 * V3 * M3 :=
  (diag (1, 1, -1), (18, 8, 2), identity).

(** *** Algorithm 27: one batch element of two atoms one unit apart, and
    one batch element with a single atom (no off-diagonal pair) *)
Definition atom_pair : list V3 := [(0, 0, 0); (1, 0, 0)].
Definition no_nucleotides : list bool := [false; false].
Definition two_atoms : list (list V3) := [atom_pair].
Definition two_flags : list (list bool) := [no_nucleotides].

(** *** Algorithms 29 and 30: a frame in the plane [z = 0] with edge
    vectors of length 5, and the rotation by the angle whose cosine is
    3/5 about the third axis *)
Definition phi0 : Frames.frame := ((3, 4, 0), (0, 0, 0), (3, -4, 0)).
Definition Rz : M3 := ((3/5, -4/5, 0), (4/5, 3/5, 0), (0, 0, 1)).
Definition t0 : V3 := (1, 2, 3).
Definition x0 : V3 := (1, 0, 0).
Definition x_true0 : V3 := (0, 0, 0).

(** *** Algorithms 5 and 20: one batch element of four atoms with one
    feature each, in two windows of two atoms, one atom masked out per
    window; the projection is the identity on non-negative features *)
Definition four_atoms : Tensor.T3 := [[[1]; [2]; [3]; [4]]].
Definition four_atoms_mask : Tensor.Mask2 := [[true; false; false; true]].
Definition unit_pooler : AtomToTokenPooler.t :=
  {| AtomToTokenPooler.proj_weight := [[1]];
     AtomToTokenPooler.atoms_per_window := 2 |}.

(** *** Algorithm 20: one token of two atoms with one feature each; the
    encoder and decoder have depth 0, the token transformer has one
    layer whose attention adds 1 to the token, and the conditioners,
    normalisation and output head pass their first argument on *)
Definition add_one_layer : DiffusionTransformer.layer :=
  {| DiffusionTransformer.attn := fun _ _ _ _ => [[[1]]];
     DiffusionTransformer.transition := fun _ _ => [[[0]]] |}.

Definition tiny_module : DiffusionModule.t :=
  {| DiffusionModule.atoms_per_window := 2;
     DiffusionModule.single_conditioner := fun _ s _ => s;
     DiffusionModule.pairwise_conditioner := fun p _ => p;
     DiffusionModule.atom_pos_to_atom_feat_cond := [[1; 0; 0]];
     DiffusionModule.atom_encoder := [];
     DiffusionModule.cond_tokens_with_cond_single := fun s => s;
     DiffusionModule.token_transformer := [add_one_layer];
     DiffusionModule.attended_token_norm := fun x => x;
     DiffusionModule.tokens_to_atom_decoder_input_cond := [[1]];
     DiffusionModule.atom_decoder := [];
     DiffusionModule.atom_feat_to_atom_pos_update := fun x => x |}.

Definition tiny_inputs : DiffusionModule.inputs :=
  {| DiffusionModule.noised_atom_pos := [[[0; 0; 0]; [0; 0; 0]]];
     DiffusionModule.atom_feats := [[[2]; [5]]];
     DiffusionModule.atompair_feats := [];
     DiffusionModule.atom_mask := [[true; true]];
     DiffusionModule.times := [1];
     DiffusionModule.mask := [[true]];
     DiffusionModule.single_trunk_repr := [[[0]]];
     DiffusionModule.single_inputs_repr := [[[0]]];
     DiffusionModule.pairwise_trunk := [];
     DiffusionModule.pairwise_rel_pos_feats := [] |}.

(** *** Algorithm 24: an attention that returns a fresh copy of its
    primary signal; a store with one single and one pairwise
    representation; a module with one head *)
Definition copy_attention (single bias : AttentionPairBias.loc)
           (kwargs : list AttentionPairBias.loc) (s : AttentionPairBias.store)
  : option (AttentionPairBias.loc * AttentionPairBias.store) :=
  match nth_error s single with
  | Some v => Some (AttentionPairBias.alloc v s)
  | None => None
  end.

Definition two_tensors : AttentionPairBias.store :=
  [AttentionPairBias.Rank3 [[[1; 2]]]; AttentionPairBias.Rank4 [[[[3; 4]]]]].

Definition one_head : AttentionPairBias.t :=
  {| AttentionPairBias.norm_weight := [1; 1];
     AttentionPairBias.norm_bias := [0; 0];
     AttentionPairBias.norm_eps := / 100000;
     AttentionPairBias.to_attn_bias_linear := [[0; 0]] |}.

End Samples.

(* ===================================================================== *)
(** * Part II: theorems                                                   *)
(* ===================================================================== *)

Module Vec3Facts.
Import Vec3.

Ltac destruct_m3 A :=
  let a00 := fresh A "00" in let a01 := fresh A "01" in let a02 := fresh A "02" in
  let a10 := fresh A "10" in let a11 := fresh A "11" in let a12 := fresh A "12" in
  let a20 := fresh A "20" in let a21 := fresh A "21" in let a22 := fresh A "22" in
  destruct A as [[[[a00 a01] a02] [[a10 a11] a12]] [[a20 a21] a22]].

Ltac destruct_v3 u :=
  let u0 := fresh u "0" in let u1 := fresh u "1" in let u2 := fresh u "2" in
  destruct u as [[u0 u1] u2].

(** equal tuples, one ring identity per entry *)
Ltac m3_ring := cbn; repeat apply (f_equal2 pair); ring.

Lemma det_matmul (A B : M3) : det (matmul A B) = det A * det B.
Proof. destruct_m3 A. destruct_m3 B. cbn. ring. Qed.

Lemma det_transpose (A : M3) : det (transpose A) = det A.
Proof. destruct_m3 A. cbn. ring. Qed.

Lemma det_identity : det identity = 1.
Proof. cbn. ring. Qed.

Lemma det_negate_last_column (A : M3) : det (negate_last_column A) = - det A.
Proof. destruct_m3 A. cbn. ring. Qed.

Lemma matmul_assoc (A B C : M3) :
  matmul (matmul A B) C = matmul A (matmul B C).
Proof. destruct_m3 A. destruct_m3 B. destruct_m3 C. m3_ring. Qed.

Lemma matmul_identity_l (A : M3) : matmul identity A = A.
Proof. destruct_m3 A. m3_ring. Qed.

Lemma matmul_identity_r (A : M3) : matmul A identity = A.
Proof. destruct_m3 A. m3_ring. Qed.

Lemma transpose_matmul (A B : M3) :
  transpose (matmul A B) = matmul (transpose B) (transpose A).
Proof. destruct_m3 A. destruct_m3 B. m3_ring. Qed.

Lemma negate_last_column_matmul (A : M3) :
  negate_last_column A = matmul A (diag (1, 1, -1)).
Proof. destruct_m3 A. m3_ring. Qed.

Lemma orthogonal_det_sqr (A : M3) : orthogonal A -> det A * det A = 1.
Proof.
  intros HA. rewrite <- (det_transpose A) at 1.
  rewrite <- det_matmul, HA. apply det_identity.
Qed.

Lemma orthogonal_matmul (A B : M3) :
  orthogonal A -> orthogonal B -> orthogonal (matmul A B).
Proof.
  unfold orthogonal. intros HA HB.
  rewrite transpose_matmul, matmul_assoc, <- (matmul_assoc (transpose A)), HA.
  now rewrite matmul_identity_l.
Qed.

Lemma orthogonal_negate_last_column (A : M3) :
  orthogonal A -> orthogonal (negate_last_column A).
Proof.
  intros HA. rewrite negate_last_column_matmul.
  apply orthogonal_matmul; [exact HA|]. unfold orthogonal. m3_ring.
Qed.

End Vec3Facts.

(** ** Algorithm 28: the aligned rotation is proper *)

Module WeightedRigidAlignFacts.
Import Vec3 Vec3Facts WeightedRigidAlign Samples.

Lemma corrected_rotation_orthogonal (U V : M3) :
  orthogonal U -> orthogonal V -> orthogonal (corrected_rotation U V).
Proof.
  intros HU HV. unfold corrected_rotation.
  destruct (Rlt_dec (det (matmul U V)) 0).
  - apply orthogonal_matmul; [exact HU|].
    now apply orthogonal_negate_last_column.
  - now apply orthogonal_matmul.
Qed.

Lemma corrected_rotation_det (U V : M3) :
  orthogonal U -> orthogonal V -> det (corrected_rotation U V) = 1.
Proof.
  intros HU HV. unfold corrected_rotation.
  pose proof (orthogonal_det_sqr HU) as HdU.
  pose proof (orthogonal_det_sqr HV) as HdV.
  assert (Hsq : (det U * det V) * (det U * det V) = 1)
    by (transitivity ((det U * det U) * (det V * det V));
        [ring | rewrite HdU, HdV; ring]).
  destruct (Rlt_dec (det (matmul U V)) 0) as [Hneg | Hpos];
    rewrite ?det_matmul, ?det_negate_last_column in *; nra.
Qed.

(** the sign test of the source, on [U V], is the test on [U V^T] *)
Lemma det_UV_transpose (U V : M3) :
  det (matmul U (transpose V)) = det (matmul U V).
Proof. now rewrite !det_matmul, det_transpose. Qed.

(** C1: for one batch element whose covariance matrix [torch.svd]
    decomposes as [(U, S, V)], the matrix that [forward] multiplies the
    centred predicted coordinates with is a proper rotation: it is
    orthogonal with determinant [+1]; and whenever [det (U V^T)] is
    negative it is [U] times [V] with its last column sign-flipped,
    otherwise it is the uncorrected product of the source. *)
Theorem C1_rotation_det_one
        (svd : M3 -> M3 * V3 * M3)
        (pred_coords true_coords : list V3) (weights : list R) :
  is_svd (cov_matrix pred_coords true_coords weights)
         (svd (cov_matrix pred_coords true_coords weights)) ->
  let '(U, _, V) := svd (cov_matrix pred_coords true_coords weights) in
  let R_ := rot_matrix svd pred_coords true_coords weights in
  det R_ = 1 /\ rotation R_ /\
  (det (matmul U (transpose V)) < 0 -> R_ = matmul U (negate_last_column V)) /\
  (~ det (matmul U (transpose V)) < 0 -> R_ = matmul U V) /\
  forward1 svd pred_coords true_coords weights =
    map (fun p => add (vecmat p R_) (centroid true_coords weights))
        (center pred_coords (centroid pred_coords weights)).
Proof.
  unfold forward1, rot_matrix.
  destruct (svd (cov_matrix pred_coords true_coords weights)) as [[U Sg] V].
  intros (HU & HV & _ & _). cbv zeta.
  pose proof (corrected_rotation_det HU HV) as Hdet.
  pose proof (corrected_rotation_orthogonal HU HV) as Horth.
  repeat split; try assumption.
  - rewrite det_UV_transpose. intros Hneg. unfold corrected_rotation.
    destruct (Rlt_dec (det (matmul U V)) 0); [reflexivity | contradiction].
  - rewrite det_UV_transpose. intros Hpos. unfold corrected_rotation.
    destruct (Rlt_dec (det (matmul U V)) 0); [contradiction | reflexivity].
Qed.

Lemma mirror_cov_matrix :
  cov_matrix octahedron mirrored_octahedron unit_weights = diag (18, 8, -2).
Proof.
  unfold cov_matrix, centroid, octahedron, mirrored_octahedron, unit_weights.
  cbn. repeat apply (f_equal2 pair); field.
Qed.

Lemma C1_rotation_det_one_witness :
  is_svd (cov_matrix octahedron mirrored_octahedron unit_weights)
         (mirror_svd (cov_matrix octahedron mirrored_octahedron unit_weights)) /\
  det (rot_matrix mirror_svd octahedron mirrored_octahedron unit_weights) = 1.
Proof.
  assert (Hsvd : is_svd (cov_matrix octahedron mirrored_octahedron unit_weights)
                   (mirror_svd (cov_matrix octahedron mirrored_octahedron unit_weights))).
  { rewrite mirror_cov_matrix. unfold mirror_svd, is_svd, orthogonal.
    repeat split; try (cbn; lra); m3_ring. }
  split; [exact Hsvd|].
  exact (proj1 (C1_rotation_det_one mirror_svd octahedron mirrored_octahedron
                                    unit_weights Hsvd)).
Defined.

End WeightedRigidAlignFacts.

(** ** Algorithm 27: the smooth LDDT loss *)

Module SmoothLDDTLossFacts.
Import Vec3 SmoothLDDTLoss Samples.

Lemma sigmoid_bounds (x : R) : 0 < sigmoid x < 1.
Proof.
  unfold sigmoid. pose proof (exp_pos (- x)) as He.
  split.
  - apply Rdiv_lt_0_compat; lra.
  - apply Rmult_lt_reg_r with (1 + exp (- x)); [lra|].
    unfold Rdiv. rewrite Rmult_assoc, Rinv_l by lra. lra.
Qed.


Lemma eps_at_zero_bounds : 0 < eps_at_zero < 1.
Proof.
  unfold eps_at_zero.
  pose proof (sigmoid_bounds (1/2)). pose proof (sigmoid_bounds 1).
  pose proof (sigmoid_bounds 2). pose proof (sigmoid_bounds 4). lra.
Qed.

Lemma dist_diff_same coords i j : dist_diff coords coords i j = 0.
Proof. unfold dist_diff. rewrite Rminus_diag. apply Rabs_R0. Qed.

Lemma eps_same coords i j : eps coords coords i j = eps_at_zero.
Proof.
  unfold eps, eps_at_zero. rewrite dist_diff_same, !Rminus_0_r. reflexivity.
Qed.

(** *** Sums over a masked [n x n] tensor *)


Lemma row_sum_const (K : R) (m : nat -> bool) (l : list nat) :
  fold_right Rplus 0 (map (fun j => K * b2r (m j)) l)
  = K * INR (length (filter m l)).
Proof.
  induction l as [|j l IH]; cbn [map fold_right filter].
  - cbn. ring.
  - rewrite IH. destruct (m j); cbn [b2r length].
    + rewrite S_INR. ring.
    + ring.
Qed.


Lemma grid_sum_const (K : R) (m : nat -> nat -> bool) (rows cols : list nat) :
  fold_right Rplus 0
    (map (fun i => fold_right Rplus 0
                     (map (fun j => K * b2r (m i j)) cols)) rows)
  = K * INR (fold_right Nat.add 0%nat
               (map (fun i => length (filter (m i) cols)) rows)).
Proof.
  induction rows as [|i rows IH]; cbn [map fold_right].
  - cbn. ring.
  - rewrite plus_INR, IH, row_sum_const. ring.
Qed.


Lemma sum2_const (n : nat) (K : R) (m : nat -> nat -> bool) :
  sum2 n (fun i j => K * b2r (m i j)) = K * INR (count2 n m).
Proof. apply grid_sum_const. Qed.

Lemma sum2_ext (n : nat) (f g : nat -> nat -> R) :
  (forall i j, f i j = g i j) -> sum2 n f = sum2 n g.
Proof.
  intros Hfg. unfold sum2. f_equal. apply map_ext. intros i.
  f_equal. apply map_ext. intros j. apply Hfg.
Qed.

(** *** The clamped divisor *)





Lemma lddt_same cfg coords d r :
  (1 <= lddt_count cfg coords coords d r)%nat ->
  lddt cfg coords coords d r = eps_at_zero.
Proof.
  intros Hc. unfold lddt, lddt_sum.
  rewrite (sum2_ext _ _ (fun i j => eps_at_zero * b2r (mask cfg coords d r i j)))
    by (intros i j; now rewrite eps_same).
  rewrite sum2_const. fold (lddt_count cfg coords coords d r).
  unfold clamped_count. rewrite Nat.max_l by exact Hc.
  assert (0 < INR (lddt_count cfg coords coords d r))
    by (apply lt_0_INR; lia).
  field. lra.
Qed.

(** *** The mean over the batch *)

Lemma sum_bounds (f : nat -> R) (l : list nat) (lo hi : R) :
  (forall b, In b l -> lo <= f b <= hi) ->
  lo * INR (length l) <= fold_right Rplus 0 (map f l) <= hi * INR (length l).
Proof.
  induction l as [|b l IH]; intros Hf.
  - cbn. lra.
  - cbn [map fold_right length]. rewrite S_INR.
    pose proof (Hf b (or_introl eq_refl)).
    assert (forall b', In b' l -> lo <= f b' <= hi)
      by (intros b' Hb'; apply Hf; now right).
    specialize (IH H0). lra.
Qed.

Lemma mean_bounds (f : nat -> R) (l : list nat) (lo hi : R) :
  l <> [] -> (forall b, In b l -> lo <= f b <= hi) ->
  lo <= mean (map f l) <= hi.
Proof.
  intros Hne Hf. unfold mean. rewrite length_map.
  pose proof (@sum_bounds f l lo hi Hf) as Hs.
  assert (Hlen : 0 < INR (length l)).
  { apply lt_0_INR. destruct l; [congruence | cbn; lia]. }
  split.
  - apply Rmult_le_reg_r with (INR (length l)); [lra|].
    unfold Rdiv. rewrite Rmult_assoc, Rinv_l by lra. lra.
  - apply Rmult_le_reg_r with (INR (length l)); [lra|].
    unfold Rdiv. rewrite Rmult_assoc, Rinv_l by lra. lra.
Qed.

Lemma seq_nonempty (A : Type) (l : list A) : l <> [] -> seq 0 (length l) <> [].
Proof. destruct l; [congruence | discriminate]. Qed.

Lemma forward_same cfg (coords : list (list V3)) (is_dna is_rna : list (list bool)) :
  coords <> [] ->
  (forall b, (b < length coords)%nat ->
     (1 <= lddt_count cfg (nth b coords []) (nth b coords [])
                      (nth b is_dna []) (nth b is_rna []))%nat) ->
  forward cfg coords coords is_dna is_rna = 1 - eps_at_zero.
Proof.
  intros Hne Hcount. unfold forward, lddt_batch.
  enough (eps_at_zero <= mean (map (fun b => lddt cfg (nth b coords []) (nth b coords [])
                                            (nth b is_dna []) (nth b is_rna []))
                                  (seq 0 (length coords))) <= eps_at_zero) by lra.
  apply mean_bounds; [now apply seq_nonempty|].
  intros b Hb. apply in_seq in Hb. rewrite lddt_same by (apply Hcount; lia). lra.
Qed.

Lemma Rltb_true (x y : R) : x < y -> Rltb x y = true.
Proof. intros H. unfold Rltb. destruct (Rlt_dec x y); [reflexivity | contradiction]. Qed.

Lemma two_atoms_dist : dists atom_pair 0 1 = 1.
Proof.
  unfold dists, norm. cbn [atom_pair nth sub dot zero].
  replace ((0 - 1) * (0 - 1) + (0 - 0) * (0 - 0) + (0 - 0) * (0 - 0)) with 1 by ring.
  apply sqrt_1.
Qed.

Lemma two_atoms_mask :
  mask default_config atom_pair no_nucleotides no_nucleotides 0 1 = true.
Proof.
  unfold mask, inclusion_radius, is_nucleotide_pair, is_nucleotide.
  rewrite two_atoms_dist.
  cbn [no_nucleotides nth orb andb Nat.eqb negb default_config other_cutoff].
  rewrite Rltb_true by lra. reflexivity.
Qed.

Lemma two_atoms_count :
  (1 <= lddt_count default_config atom_pair atom_pair
                   no_nucleotides no_nucleotides)%nat.
Proof.
  unfold lddt_count, count2, n_atoms.
  change (length atom_pair) with 2%nat. cbn [seq map fold_right filter].
  rewrite two_atoms_mask.
  repeat match goal with |- context [if ?b then _ else _] => destruct b end;
    cbn [length Nat.add]; lia.
Qed.

Lemma two_atoms_batch_count (b : nat) :
  (b < length two_atoms)%nat ->
  (1 <= lddt_count default_config (nth b two_atoms []) (nth b two_atoms [])
                   (nth b two_flags []) (nth b two_flags []))%nat.
Proof.
  intros Hb. cbn [two_atoms length] in Hb.
  assert (b = 0%nat) by lia. subst b. exact two_atoms_count.
Qed.

(** C4, as stated, fails: for two atoms one unit apart and identical
    predicted and true coordinates, the pair (0, 1) is included, its
    score is not 1 and the loss is not 0. *)
Lemma C4_perfect_match_loss_nonzero :
  mask default_config atom_pair no_nucleotides no_nucleotides 0 1 = true /\
  eps atom_pair atom_pair 0 1 <> 1 /\
  forward default_config two_atoms two_atoms two_flags two_flags <> 0.
Proof.
  pose proof eps_at_zero_bounds as HK.
  split; [exact two_atoms_mask|]. split.
  - rewrite eps_same. lra.
  - rewrite forward_same; [lra | discriminate | exact two_atoms_batch_count].
Qed.

(** C4, amended: when the predicted coordinates are identical to the true
    ones, the distance difference is 0 for every pair, so the score of
    every pair is the value of the four-threshold smooth step at 0,
    [(sigmoid 0.5 + sigmoid 1 + sigmoid 2 + sigmoid 4) / 4], which lies
    strictly between 0 and 1; with at least one included off-diagonal
    pair in every element of a non-empty batch, the loss is one minus
    that value, hence positive. *)
Theorem C4_identical_coords_loss
        cfg (coords : list (list V3)) (is_dna is_rna : list (list bool)) :
  coords <> [] ->
  (forall b, (b < length coords)%nat ->
     (1 <= lddt_count cfg (nth b coords []) (nth b coords [])
                      (nth b is_dna []) (nth b is_rna []))%nat) ->
  (forall b i j, dist_diff (nth b coords []) (nth b coords []) i j = 0) /\
  (forall b i j, eps (nth b coords []) (nth b coords []) i j = eps_at_zero) /\
  forward cfg coords coords is_dna is_rna = 1 - eps_at_zero /\
  0 < eps_at_zero < 1 /\
  0 < forward cfg coords coords is_dna is_rna < 1.
Proof.
  intros Hne Hcount. pose proof eps_at_zero_bounds as HK.
  rewrite forward_same by assumption.
  repeat split; try lra.
  - intros b i j. apply dist_diff_same.
  - intros b i j. apply eps_same.
Qed.

Lemma C4_identical_coords_loss_witness :
  forward default_config two_atoms two_atoms two_flags two_flags = 1 - eps_at_zero.
Proof.
  refine (proj1 (proj2 (proj2
    (@C4_identical_coords_loss default_config two_atoms two_flags two_flags _ _)))).
  - discriminate.
  - exact two_atoms_batch_count.
Defined.

(** *** The divisions with a zero divisor *)
















End SmoothLDDTLossFacts.

(** ** Algorithms 29 and 30: the local frame *)

Module FramesFacts.
Import Vec3 Vec3Facts Frames Samples.

Ltac v3_eq := cbn; repeat apply (f_equal2 pair); lra.

Lemma norm_eq (u : V3) (r : R) : 0 <= r -> dot u u = r * r -> norm u = r.
Proof. intros Hr Hu. unfold norm. rewrite Hu. now apply sqrt_square. Qed.

Lemma dot_self_nonneg (u : V3) : 0 <= dot u u.
Proof. destruct_v3 u. cbn. nra. Qed.

Lemma norm_sqr (u : V3) : norm u * norm u = dot u u.
Proof. unfold norm. apply sqrt_sqrt, dot_self_nonneg. Qed.

Lemma dot_divs (u v : V3) (s t : R) :
  s <> 0 -> t <> 0 -> dot (divs u s) (divs v t) = dot u v / (s * t).
Proof. intros Hs Ht. destruct_v3 u. destruct_v3 v. cbn. now field. Qed.

(** a normalised vector has unit length *)
Lemma unit_divs_norm (u : V3) :
  norm u <> 0 -> dot (divs u (norm u)) (divs u (norm u)) = 1.
Proof.
  intros Hn. rewrite dot_divs by assumption. rewrite norm_sqr.
  rewrite <- norm_sqr. now field.
Qed.

(** the sum and the difference of two unit vectors are perpendicular *)
Lemma dot_sum_diff (w1 w2 : V3) :
  dot w1 w1 = 1 -> dot w2 w2 = 1 -> dot (add w1 w2) (sub w2 w1) = 0.
Proof.
  destruct_v3 w1. destruct_v3 w2. cbn. intros H1 H2. nra.
Qed.

(** the part of the construction that is as the specification says:
    for a non-degenerate frame, [e1] and [e2] are perpendicular unit
    vectors, the normalised sum and difference of the unit edge vectors *)
Lemma frame_basis_e1_e2 (a b c : V3) :
  let w1 := divs (sub a b) (norm (sub a b)) in
  let w2 := divs (sub c b) (norm (sub c b)) in
  norm (sub a b) <> 0 -> norm (sub c b) <> 0 ->
  norm (add w1 w2) <> 0 -> norm (sub w2 w1) <> 0 ->
  let '(e1, e2, e3) := frame_basis (a, b, c) in
  e1 = divs (add w1 w2) (norm (add w1 w2)) /\
  e2 = divs (sub w2 w1) (norm (sub w2 w1)) /\
  e3 = mul e1 e2 /\
  dot e1 e1 = 1 /\ dot e2 e2 = 1 /\ dot e1 e2 = 0.
Proof.
  intros w1 w2 Hab Hcb Hs Hd. unfold frame_basis. fold w1 w2.
  repeat split; try (now apply unit_divs_norm).
  rewrite dot_divs by assumption.
  rewrite dot_sum_diff; try (now apply unit_divs_norm).
  unfold Rdiv. ring.
Qed.

(** *** Rigid motions and the construction with the vector product *)

Lemma sub_rigid (Rm : M3) (t u v : V3) :
  sub (rigid Rm t u) (rigid Rm t v) = matvec Rm (sub u v).
Proof. destruct_m3 Rm. destruct_v3 t. destruct_v3 u. destruct_v3 v. m3_ring. Qed.

Lemma matvec_add (Rm : M3) (u v : V3) :
  matvec Rm (add u v) = add (matvec Rm u) (matvec Rm v).
Proof. destruct_m3 Rm. destruct_v3 u. destruct_v3 v. m3_ring. Qed.

Lemma matvec_sub (Rm : M3) (u v : V3) :
  matvec Rm (sub u v) = sub (matvec Rm u) (matvec Rm v).
Proof. destruct_m3 Rm. destruct_v3 u. destruct_v3 v. m3_ring. Qed.

Lemma matvec_divs (Rm : M3) (u : V3) (s : R) :
  matvec Rm (divs u s) = divs (matvec Rm u) s.
Proof.
  destruct_m3 Rm. destruct_v3 u. cbn. unfold Rdiv.
  repeat apply (f_equal2 pair); ring.
Qed.

Lemma matvec_identity (u : V3) : matvec identity u = u.
Proof. destruct_v3 u. m3_ring. Qed.

Lemma dot_matvec (A B : M3) (u v : V3) :
  dot (matvec A u) (matvec B v) = dot u (matvec (matmul (transpose A) B) v).
Proof. destruct_m3 A. destruct_m3 B. destruct_v3 u. destruct_v3 v. cbn. ring. Qed.

(** an orthogonal matrix keeps scalar products and norms *)
Lemma dot_orthogonal (Rm : M3) (u v : V3) :
  orthogonal Rm -> dot (matvec Rm u) (matvec Rm v) = dot u v.
Proof. intros HR. now rewrite dot_matvec, HR, matvec_identity. Qed.

Lemma norm_orthogonal (Rm : M3) (u : V3) :
  orthogonal Rm -> norm (matvec Rm u) = norm u.
Proof. intros HR. unfold norm. now rewrite dot_orthogonal. Qed.

(** the triple product picks up the determinant *)
Lemma triple_product_matvec (Rm : M3) (d u v : V3) :
  dot (matvec Rm d) (cross (matvec Rm u) (matvec Rm v))
  = det Rm * dot d (cross u v).
Proof. destruct_m3 Rm. destruct_v3 d. destruct_v3 u. destruct_v3 v. cbn. ring. Qed.

(** with the vector product as third axis the frame coordinates, and with
    them the alignment error, are invariant under a proper rotation and
    translation of the point together with its frame *)
Lemma express_as_specified_invariant (Rm : M3) (t x : V3) (phi : frame) :
  rotation Rm ->
  express_as_specified (rigid Rm t x) (rigid_frame Rm t phi)
  = express_as_specified x phi.
Proof.
  intros [HR Hdet]. destruct phi as [[a b] c].
  unfold express_as_specified, frame_basis_as_specified, rigid_frame.
  rewrite !sub_rigid, !(norm_orthogonal _ HR).
  rewrite <- !matvec_divs, <- matvec_add, <- matvec_sub.
  rewrite !(norm_orthogonal _ HR), <- !matvec_divs.
  rewrite triple_product_matvec, !(dot_orthogonal _ _ HR), Hdet.
  now rewrite Rmult_1_l.
Qed.

Lemma error_as_specified_invariant (Rm : M3) (t x x_true : V3)
      (phi phi_true : frame) (eps : R) :
  rotation Rm ->
  error_as_specified (rigid Rm t x) x_true (rigid_frame Rm t phi) phi_true eps
  = error_as_specified x x_true phi phi_true eps.
Proof.
  intros HR. unfold error_as_specified.
  now rewrite express_as_specified_invariant.
Qed.

(** *** The frame [phi0] *)

Lemma phi0_basis : frame_basis phi0 = ((1, 0, 0), (0, -1, 0), (0, 0, 0)).
Proof.
  unfold frame_basis, phi0. cbv zeta.
  replace (sub (3, 4, 0) (0, 0, 0)) with ((3, 4, 0) : V3) by v3_eq.
  replace (sub (3, -4, 0) (0, 0, 0)) with ((3, -4, 0) : V3) by v3_eq.
  rewrite (@norm_eq (3, 4, 0) 5) by (cbn; lra).
  rewrite (@norm_eq (3, -4, 0) 5) by (cbn; lra).
  replace (divs (3, 4, 0) 5) with ((3/5, 4/5, 0) : V3) by v3_eq.
  replace (divs (3, -4, 0) 5) with ((3/5, -4/5, 0) : V3) by v3_eq.
  replace (add (3/5, 4/5, 0) (3/5, -4/5, 0)) with ((6/5, 0, 0) : V3) by v3_eq.
  replace (sub (3/5, -4/5, 0) (3/5, 4/5, 0)) with ((0, -8/5, 0) : V3) by v3_eq.
  rewrite (@norm_eq (6/5, 0, 0) (6/5)) by (cbn; lra).
  rewrite (@norm_eq (0, -8/5, 0) (8/5)) by (cbn; lra).
  v3_eq.
Qed.

Lemma projections_in_basis (x a b c e1 e2 e3 : V3) :
  frame_basis (a, b, c) = (e1, e2, e3) ->
  projections x (a, b, c)
  = [Dim0 (dot (sub x b) e1); Dim0 (dot (sub x b) e2); Dim0 (dot (sub x b) e3)].
Proof. intros H. unfold projections. now rewrite H. Qed.

Ltac dim0_eq :=
  repeat (apply (f_equal2 cons); [apply (f_equal Dim0); lra|]); reflexivity.

(** *** The call of [torch.concat] *)

Lemma concat_dim0 (v : R) (rest : list tensor) :
  concat (Dim0 v :: rest) = inl RuntimeError.
Proof. reflexivity. Qed.

Lemma expressCoordinatesInFrame_raises (x : V3) (phi : frame) :
  expressCoordinatesInFrame x phi = inl RuntimeError.
Proof.
  destruct phi as [[a b] c]. unfold expressCoordinatesInFrame, projections.
  destruct (frame_basis (a, b, c)) as [[e1 e2] e3]. apply concat_dim0.
Qed.

Lemma rotated_phi0 :
  rigid_frame Rz t0 phi0 = ((-2/5, 34/5, 3), (1, 2, 3), (6, 2, 3)).
Proof. unfold rigid_frame, rigid, phi0, Rz, t0. v3_eq. Qed.

Lemma rotated_phi0_basis :
  frame_basis ((-2/5, 34/5, 3), (1, 2, 3), (6, 2, 3))
  = ((3/5, 4/5, 0), (4/5, -3/5, 0), (12/25, -12/25, 0)).
Proof.
  unfold frame_basis. cbv zeta.
  replace (sub (-2/5, 34/5, 3) (1, 2, 3)) with ((-7/5, 24/5, 0) : V3) by v3_eq.
  replace (sub (6, 2, 3) (1, 2, 3)) with ((5, 0, 0) : V3) by v3_eq.
  rewrite (@norm_eq (-7/5, 24/5, 0) 5) by (cbn; lra).
  rewrite (@norm_eq (5, 0, 0) 5) by (cbn; lra).
  replace (divs (-7/5, 24/5, 0) 5) with ((-7/25, 24/25, 0) : V3) by v3_eq.
  replace (divs (5, 0, 0) 5) with ((1, 0, 0) : V3) by v3_eq.
  replace (add (-7/25, 24/25, 0) (1, 0, 0)) with ((18/25, 24/25, 0) : V3) by v3_eq.
  replace (sub (1, 0, 0) (-7/25, 24/25, 0)) with ((32/25, -24/25, 0) : V3) by v3_eq.
  rewrite (@norm_eq (18/25, 24/25, 0) (6/5)) by (cbn; lra).
  rewrite (@norm_eq (32/25, -24/25, 0) (8/5)) by (cbn; lra).
  v3_eq.
Qed.

Lemma Rz_rotation : rotation Rz.
Proof. split; [unfold orthogonal, Rz; v3_eq | unfold Rz; cbn; lra]. Qed.

(** C6: [expressCoordinatesInFrame] neither builds the basis of the
    claim nor returns a projection.  The third vector it builds is the
    elementwise product [e1 * e2], not the vector product: at the frame
    [phi0] the first two vectors are the perpendicular unit vectors
    [(1, 0, 0)] and [(0, -1, 0)], the vector product would be
    [(0, 0, -1)], and the code's third vector is [(0, 0, 0)], so the
    triple is not orthonormal.  And for every point and every frame the
    call raises [RuntimeError]: the three scalar products handed to
    [torch.concat] have dimension zero. *)
Theorem C6_elementwise_third_axis_and_concat_raises :
  (forall phi : frame, let '(e1, e2, e3) := frame_basis phi in e3 = mul e1 e2) /\
  (let '(e1, e2, e3) := frame_basis phi0 in
   e1 = (1, 0, 0) /\ e2 = (0, -1, 0) /\ e3 = (0, 0, 0) /\
   cross e1 e2 = (0, 0, -1) /\ e3 <> cross e1 e2 /\
   dot e3 e3 <> 1 /\ ~ orthonormal e1 e2 e3) /\
  (forall (x : V3) (phi : frame),
      expressCoordinatesInFrame x phi = inl RuntimeError) /\
  expressCoordinatesInFrame (0, 0, 1) phi0 = inl RuntimeError.
Proof.
  split; [|split; [|split]].
  - intros [[a b] c]. reflexivity.
  - rewrite phi0_basis.
    assert (Hcross : cross (1, 0, 0) (0, -1, 0) = (0, 0, -1)) by v3_eq.
    repeat split; try reflexivity.
    + exact Hcross.
    + rewrite Hcross. intros H. apply (f_equal snd) in H. cbn in H. lra.
    + cbn. lra.
    + intros (_ & _ & H & _). cbn in H. lra.
  - exact expressCoordinatesInFrame_raises.
  - apply expressCoordinatesInFrame_raises.
Qed.

(** C7: [computeAlignmentError] returns no error whose invariance could
    hold: for every pair of points, every pair of frames and every [eps]
    it raises [RuntimeError], because its first step is the call of
    [expressCoordinatesInFrame].  The numbers computed before the raise
    are not invariant either: for the point [x0], the frame [phi0] and
    the proper rotation [Rz] with translation [t0], the third of the
    scalar products of line 1292 is [0] before and [-12/125] after the
    motion of the point together with its frame, since the third frame
    vector is the elementwise product. *)
Theorem C7_alignment_error_raises :
  (forall (x x_true : V3) (phi phi_true : frame) (eps : R),
      computeAlignmentError x x_true phi phi_true eps = inl RuntimeError) /\
  computeAlignmentError x0 x_true0 phi0 phi0 default_eps = inl RuntimeError /\
  computeAlignmentError (rigid Rz t0 x0) x_true0 (rigid_frame Rz t0 phi0) phi0
                        default_eps = inl RuntimeError /\
  rotation Rz /\
  projections x0 phi0 = [Dim0 1; Dim0 0; Dim0 0] /\
  projections (rigid Rz t0 x0) (rigid_frame Rz t0 phi0)
  = [Dim0 1; Dim0 0; Dim0 (-12/125)].
Proof.
  assert (Hall : forall (x x_true : V3) (phi phi_true : frame) (eps : R),
             computeAlignmentError x x_true phi phi_true eps = inl RuntimeError).
  { intros x x_true phi phi_true eps. unfold computeAlignmentError.
    now rewrite expressCoordinatesInFrame_raises. }
  split; [exact Hall|]. split; [apply Hall|]. split; [apply Hall|].
  split; [exact Rz_rotation|]. split.
  - unfold phi0. rewrite (projections_in_basis _ phi0_basis). unfold x0.
    cbn [sub dot]. dim0_eq.
  - rewrite rotated_phi0. rewrite (projections_in_basis _ rotated_phi0_basis).
    unfold rigid, Rz, t0, x0. cbn [sub dot add matvec]. dim0_eq.
Qed.

End FramesFacts.

(** ** Masked mean pooling (Algorithm 5 and the inline pooling of Algorithm 20) *)

Module PoolingFacts.
Import Tensor Samples.

Definition zero_like (r : Vec) : Vec := map (fun _ => 0) r.

(** equal results of shape-checked tensor code, entry by entry *)
Ltac tensor_eq :=
  repeat match goal with
         | |- Some _ = Some _ => apply f_equal
         | |- _ :: _ = _ :: _ => apply (f_equal2 cons)
         | |- [] = [] => reflexivity
         | |- context [Rmax ?a ?b] =>
             unfold Rmax; destruct (Rle_dec a b); try lra
         end;
  try lra.

Lemma vadd_zero_l (z x : Vec) :
  length z = length x -> vadd (zero_like z) x = Some x.
Proof.
  revert x. induction z as [|a z IH]; intros [|b x] Hlen; try discriminate.
  - reflexivity.
  - cbn in Hlen. injection Hlen as Hlen. unfold vadd, zero_like in *. cbn.
    rewrite (IH x Hlen). cbn. now rewrite Rplus_0_l.
Qed.

Lemma vadd_zero_r (x z : Vec) :
  length z = length x -> vadd x (zero_like z) = Some x.
Proof.
  revert x. induction z as [|a z IH]; intros [|b x] Hlen; try discriminate.
  - reflexivity.
  - cbn in Hlen. injection Hlen as Hlen. unfold vadd, zero_like in *. cbn.
    rewrite (IH x Hlen). cbn. now rewrite Rplus_0_r.
Qed.

Lemma zero_like_length (r : Vec) : length (zero_like r) = length r.
Proof. apply length_map. Qed.

Lemma zero_like_idem (r : Vec) : zero_like (zero_like r) = zero_like r.
Proof. unfold zero_like. rewrite map_map. reflexivity. Qed.

(** the sum of a non-empty window of zero rows of one length *)
Lemma sum_rows_zero (x : Vec) (r : Vec) (rows : T2) :
  Forall (fun r' => length r' = length x) (r :: rows) ->
  sum_rows (map zero_like (r :: rows)) = Some (zero_like x).
Proof.
  revert r. induction rows as [|r' rows IH]; intros r Hall.
  - cbn. f_equal. inversion Hall as [|? ? Hr _]; subst.
    unfold zero_like. clear Hall. revert x Hr.
    induction r as [|a r IHr]; intros [|b x] Hr; try discriminate; [reflexivity|].
    cbn. f_equal. apply IHr. now injection Hr.
  - inversion Hall as [|? ? Hr Hrest]; subst.
    change (sum_rows (map zero_like (r :: r' :: rows)))
      with (bind (sum_rows (map zero_like (r' :: rows))) (fun s => vadd (zero_like r) s)).
    rewrite (IH r' Hrest). cbn [bind].
    rewrite vadd_zero_l by (now rewrite zero_like_length).
    reflexivity.
Qed.

Lemma sum_rows_single_then_zeros (x : Vec) (post : T2) :
  Forall (fun r => length r = length x) post ->
  sum_rows (x :: map zero_like post) = Some x.
Proof.
  intros Hall. destruct post as [|r post]; [reflexivity|].
  change (sum_rows (x :: map zero_like (r :: post)))
    with (bind (sum_rows (map zero_like (r :: post))) (fun s => vadd x s)).
  rewrite (@sum_rows_zero x r post Hall). cbn [bind]. now apply vadd_zero_r.
Qed.

Lemma sum_rows_one_nonzero (x : Vec) (pre post : T2) :
  Forall (fun r => length r = length x) pre ->
  Forall (fun r => length r = length x) post ->
  sum_rows (map zero_like pre ++ x :: map zero_like post) = Some x.
Proof.
  intros Hpre Hpost. induction pre as [|r pre IH].
  - now apply sum_rows_single_then_zeros.
  - inversion Hpre as [|? ? Hr Hpre']; subst.
    cbn [map app].
    destruct (map zero_like pre ++ x :: map zero_like post) as [|y rest] eqn:E.
    + destruct pre; discriminate.
    + change (sum_rows (zero_like r :: y :: rest))
        with (bind (sum_rows (y :: rest)) (fun s => vadd (zero_like r) s)).
      rewrite (IH Hpre'). cbn [bind]. now apply vadd_zero_l.
Qed.

Lemma masked_fill_cons (b : bool) (m : list bool) (r : Vec) (rows : T2) :
  masked_fill (b :: m) (r :: rows)
  = bind (masked_fill m rows)
         (fun rest => Some ((if b then zero_like r else r) :: rest)).
Proof. reflexivity. Qed.

Lemma masked_fill_app (m1 m2 : list bool) (r1 r2 : T2) :
  length m1 = length r1 ->
  masked_fill (m1 ++ m2) (r1 ++ r2)
  = bind (masked_fill m1 r1) (fun a => bind (masked_fill m2 r2) (fun b => Some (a ++ b))).
Proof.
  revert r1.
  induction m1 as [|b m1 IH]; intros [|r r1] Hlen; try discriminate.
  - cbn [app]. change (masked_fill [] []) with (Some (@nil Vec)). cbn [bind].
    destruct (masked_fill m2 r2); reflexivity.
  - cbn in Hlen. injection Hlen as Hlen.
    cbn [app]. rewrite !masked_fill_cons, (IH r1 Hlen).
    destruct (masked_fill m1 r1); cbn [bind]; [|reflexivity].
    destruct (masked_fill m2 r2); reflexivity.
Qed.

Lemma masked_fill_all (rows : T2) :
  masked_fill (repeat true (length rows)) rows = Some (map zero_like rows).
Proof.
  induction rows as [|r rows IH]; [reflexivity|].
  cbn [length repeat map]. rewrite masked_fill_cons, IH. reflexivity.
Qed.

Lemma count_true_single (n k : nat) :
  count_true (repeat false n ++ true :: repeat false k) = 1.
Proof.
  unfold count_true. rewrite filter_app. cbn [filter].
  assert (Hf : forall j, filter (fun b : bool => b) (repeat false j) = [])
    by (induction j; [reflexivity | assumption]).
  rewrite !Hf. reflexivity.
Qed.

Lemma div_scalar_one (x : Vec) : div_scalar x 1 = x.
Proof.
  unfold div_scalar. induction x as [|a x IH]; [reflexivity|].
  cbn. rewrite IH. f_equal. field.
Qed.

(** Algorithm 5: in a window where exactly one atom is valid, the pooled
    value is the (projected) feature row of that atom *)
Lemma AtomToTokenPooler_single_valid (x : Vec) (pre post : T2) :
  Forall (fun r => length r = length x) pre ->
  Forall (fun r => length r = length x) post ->
  AtomToTokenPooler.pool_window
    (pre ++ x :: post)
    (repeat false (length pre) ++ true :: repeat false (length post))
  = Some x.
Proof.
  intros Hpre Hpost. unfold AtomToTokenPooler.pool_window.
  rewrite count_true_single, map_app. cbn [map negb].
  rewrite !map_repeat. cbn [negb].
  rewrite masked_fill_app by (now rewrite repeat_length).
  rewrite masked_fill_all.
  change (false :: repeat true (length post)) with ([false] ++ repeat true (length post)).
  change (x :: post) with ([x] ++ post).
  rewrite masked_fill_app by reflexivity.
  rewrite masked_fill_all. cbn [bind app].
  rewrite masked_fill_cons. change (masked_fill [] []) with (Some (@nil Vec)).
  cbn [bind app].
  rewrite sum_rows_one_nonzero by assumption.
  cbn [bind]. now rewrite div_scalar_one.
Qed.

(** the inline pooling of Algorithm 20 on a window of two atoms of which
    the first is valid: the pooled value is the row of the masked-out
    atom *)
Lemma inline_pool_window_first_valid (x y : Vec) :
  length x = length y ->
  DiffusionModule.pool_window [x; y] [true; false] = Some y.
Proof.
  intros Hlen. unfold DiffusionModule.pool_window.
  rewrite !masked_fill_cons. change (masked_fill [] []) with (Some (@nil Vec)).
  cbn [bind sum_rows]. rewrite vadd_zero_l by assumption. cbn [bind].
  change (count_true [true; false]) with (INR 1). cbn [INR].
  now rewrite div_scalar_one.
Qed.

(** C3: the masked mean of [AtomToTokenPooler.forward] keeps the valid
    atoms, but the inline pooling of [DiffusionModule.forward] zeroes the
    valid atoms and sums the masked-out ones.  For four atoms with the
    features 1, 2, 3, 4 in two windows of two and the mask
    [valid, masked, masked, valid], the pooler returns the features 1 and
    4 of the valid atoms; the inline pooling returns 2 and 3, the
    features of the masked-out atoms. *)
Theorem C3_inline_pooling_zeroes_valid_atoms :
  AtomToTokenPooler.forward unit_pooler four_atoms four_atoms_mask
  = Some [[[1]; [4]]] /\
  DiffusionModule.pool_tokens 2 2 four_atoms four_atoms_mask
  = Some [[[2]; [3]]].
Proof. split; cbn; tensor_eq. Qed.

End PoolingFacts.

(** ** Algorithm 20: what the decoder of the diffusion module runs on *)

Module DiffusionModuleFacts.
Import Tensor DiffusionModule Samples.
Import PoolingFacts.

Lemma bind_Some {A B : Type} (x : option A) (f : A -> option B) (b : B) :
  bind x f = Some b -> exists a, x = Some a /\ f a = Some b.
Proof. destruct x as [a|]; [|discriminate]. intros H. now exists a. Qed.

(** whenever [forward] returns, its result is the output head applied to
    the decoder run on the encoder output, both as the noised and as the
    conditioning input; the token transformer, the normalised tokens and
    the broadcast decoder input do not enter it *)
Lemma forward_runs_decoder_on_encoder_output (self : t) (i : inputs) (out : T3) :
  forward self i = Some out ->
  exists embedded encoded decoded,
    add3 (linear3 (atom_pos_to_atom_feat_cond self) (noised_atom_pos i))
         (atom_feats i) = Some embedded /\
    DiffusionTransformer.forward (atom_encoder self) embedded embedded
      (atompair_feats i) (atom_mask i) = Some encoded /\
    DiffusionTransformer.forward (atom_decoder self) encoded encoded
      (atompair_feats i) (atom_mask i) = Some decoded /\
    out = atom_feat_to_atom_pos_update self decoded.
Proof.
  unfold forward. intros H.
  apply bind_Some in H as (_ & _ & H).
  apply bind_Some in H as (embedded & Hemb & H).
  apply bind_Some in H as (encoded & Henc & H).
  apply bind_Some in H as (tokens & _ & H).
  apply bind_Some in H as (tokens' & _ & H).
  apply bind_Some in H as (attended & _ & H).
  apply bind_Some in H as (decoder_input & _ & H).
  apply bind_Some in H as (decoded & Hdec & H).
  injection H as H. exists embedded, encoded, decoded. now subst out.
Qed.

(** C2: in [DiffusionModule.forward] the output of the token transformer
    is dropped and the decoder runs on the encoder output, not on the
    broadcast tokens plus skip connection.  On [tiny_inputs], where the
    token transformer adds 1 to the token, the source returns the atom
    features 2 and 5 unchanged, while the steps as specified return 3 and
    6; and every result of [forward] is the output head applied to the
    decoder run on the encoder output. *)
Theorem C2_decoder_ignores_token_path :
  forward tiny_module tiny_inputs = Some [[[2]; [5]]] /\
  forward_as_specified tiny_module tiny_inputs = Some [[[3]; [6]]] /\
  forward tiny_module tiny_inputs <> forward_as_specified tiny_module tiny_inputs /\
  (forall self i out,
      forward self i = Some out ->
      exists encoded decoded,
        DiffusionTransformer.forward (atom_decoder self) encoded encoded
          (atompair_feats i) (atom_mask i) = Some decoded /\
        out = atom_feat_to_atom_pos_update self decoded).
Proof.
  assert (H1 : forward tiny_module tiny_inputs = Some [[[2]; [5]]])
    by (cbn; tensor_eq).
  assert (H2 : forward_as_specified tiny_module tiny_inputs = Some [[[3]; [6]]])
    by (cbn; tensor_eq).
  repeat split; try assumption.
  - rewrite H1, H2. intros H. injection H as H _. lra.
  - intros self i out H.
    destruct (forward_runs_decoder_on_encoder_output self i H)
      as (embedded & encoded & decoded & _ & _ & Hdec & Hout).
    now exists encoded, decoded.
Qed.

End DiffusionModuleFacts.

(** ** Algorithm 7: the local attention bias *)

Module AtomTransformerFacts.
Import AtomTransformer.
Local Open Scope Q_scope.

(** with three centres, positions and centres are paired index by index:
    any number of positions other than 1 or 3 does not broadcast *)
Lemma beta_lm_default_shape_error (n : nat) :
  n <> 1%nat -> n <> 3%nat -> beta_lm (init None) n = None.
Proof.
  intros H1 H3. unfold beta_lm, init, arange, default_centres.
  cbn [subset_centres n_queries n_keys].
  destruct n as [|[|[|[|n]]]]; try congruence; reflexivity.
Qed.

(** C5: the bias of [AtomTransformer.forward] can be masked everywhere,
    and for most lengths it is not computed at all.  With the single
    centre 100 and four positions every entry is [-1e10]; with the
    default centres two positions raise a broadcasting error, as does
    every length other than 1 and 3; for three positions the result has
    one entry per position, [[0, 0, -1e10]], not one per query and key. *)
Theorem C5_bias_rows_can_be_fully_masked :
  beta_lm (init (Some [100 # 1])) 4
  = Some [masked_bias; masked_bias; masked_bias; masked_bias] /\
  beta_lm (init None) 2 = None /\
  (forall n, n <> 1%nat -> n <> 3%nat -> beta_lm (init None) n = None) /\
  beta_lm (init None) 3 = Some [0; 0; masked_bias] /\
  beta_lm (init None) 1 = Some [0; 0; masked_bias].
Proof.
  split; [reflexivity|]. split; [reflexivity|].
  split; [exact beta_lm_default_shape_error|].
  split; reflexivity.
Qed.

End AtomTransformerFacts.

(** ** Algorithms 12 and 13: construction of the triangle multiplication *)

Module TriangleMultiplicationFacts.
Import Tensor TriangleMultiplication.

(** a layer built without bias has no bias to fill *)
Lemma init_gate_no_bias (init_weight : nat -> nat -> T2) (d_in d_out : nat) :
  init_gate (LinearNoBias init_weight d_in d_out) = inl AttributeError.
Proof. reflexivity. Qed.

(** C8: constructing a [TriangleMultiplication] never succeeds.  The three
    gates are built without bias, so the identity initialisation, which
    fills the weight of the first gate with 0 and then fills its bias
    with 1, raises [AttributeError] on the missing bias, for every width,
    mixing mode, dropout and initial weights. *)
Theorem C8_init_raises
        (init_weight : nat -> nat -> T2) (dim : nat) (dim_hidden : option nat)
        (mix_ : mix) (dropout_ : R) :
  init init_weight dim dim_hidden mix_ dropout_ = inl AttributeError /\
  bias (LinearNoBias init_weight dim
          (match dim_hidden with Some h => h | None => dim end)) = None.
Proof. split; reflexivity. Qed.

End TriangleMultiplicationFacts.

(** ** Algorithm 24: the pairwise representation is only read *)

Module AttentionPairBiasFacts.
Import Tensor AttentionPairBias Samples.

Lemma nth_error_alloc (v : value) (s : store) (l : loc) :
  (l < length s)%nat -> nth_error (snd (alloc v s)) l = nth_error s l.
Proof. intros Hl. cbn. now apply nth_error_app1. Qed.

Lemma nth_error_allocated (s : store) (l : loc) (v : value) :
  nth_error s l = Some v -> (l < length s)%nat.
Proof. intros H. apply nth_error_Some. congruence. Qed.

Lemma copy_attention_contract : attention_contract copy_attention.
Proof.
  intros single bias kwargs s out s' H. unfold copy_attention in H.
  destruct (nth_error s single) as [v|] eqn:Hv; [|discriminate].
  injection H as <- <-. split.
  - intros l Hl _. now apply nth_error_app1.
  - intros v_in Hin. exists v. split.
    + rewrite nth_error_app2, Nat.sub_diag by lia. reflexivity.
    + congruence.
Qed.

Lemma copy_attention_read_only : attention_read_only copy_attention.
Proof.
  intros single bias kwargs s out s' H l Hl. unfold copy_attention in H.
  destruct (nth_error s single) as [v|]; [|discriminate].
  injection H as <- <-. now apply nth_error_app1.
Qed.

(** C10: a call of [AttentionPairBias.forward] that returns leaves the
    pairwise representation as it was: [forward] only reads it, to derive
    the bias, which is a new tensor, and does not hand it to the
    attention.  This holds when the attention writes to no existing
    tensor, and also for an attention that writes into the tensors it is
    handed as long as the caller does not pass the pairwise tensor in
    again as the single representation or as a keyword argument.  The
    returned tensor has the shape of the single representation. *)
Theorem C10_pairwise_unchanged_shape_kept
        (attn : loc -> loc -> list loc -> store -> option (loc * store))
        (self : t) (single_repr pairwise_repr : loc) (attn_bias : option loc)
        (kwargs : list loc) (s s' : store) (out : loc) :
  attention_contract attn ->
  forward attn self single_repr pairwise_repr attn_bias kwargs s = Some (out, s') ->
  (attention_read_only attn \/
   (pairwise_repr <> single_repr /\ ~ In pairwise_repr kwargs) ->
   nth_error s' pairwise_repr = nth_error s pairwise_repr) /\
  (forall v_in, nth_error s single_repr = Some v_in ->
                exists v_out, nth_error s' out = Some v_out /\
                              shape v_out = shape v_in).
Proof.
  intros Hattn. unfold forward.
  destruct (match attn_bias with
            | Some l => _
            | None => _
            end) as [attn_bias_value|]; [|discriminate].
  cbn [bind].
  destruct (nth_error s pairwise_repr) as [[x|x]|] eqn:Hpair; try discriminate.
  cbn [bind].
  destruct (add_attn_bias (to_attn_bias self x) attn_bias_value) as [bias|];
    [|discriminate].
  cbn [bind alloc]. intros Hcall.
  pose proof (nth_error_allocated _ _ Hpair) as Hlt.
  destruct (Hattn _ _ _ _ _ _ Hcall) as [Hframe Hshape].
  split.
  - intros [Hpure | [Hsingle Hkwargs]].
    + rewrite (Hpure _ _ _ _ _ _ Hcall) by (rewrite length_app; lia).
      rewrite nth_error_app1 by exact Hlt. congruence.
    + rewrite Hframe.
      * rewrite nth_error_app1 by exact Hlt. congruence.
      * rewrite length_app. lia.
      * cbn [In]. intros [H | [H | H]]; [congruence | lia | contradiction].
  - intros v_in Hin. apply Hshape.
    rewrite nth_error_app1; [exact Hin | now apply (nth_error_allocated _ _ Hin)].
Qed.

Lemma C10_pairwise_unchanged_shape_kept_witness :
  exists out s',
    forward copy_attention one_head 0%nat 1%nat None [] two_tensors = Some (out, s') /\
    nth_error s' 1%nat = nth_error two_tensors 1%nat /\
    exists v_out, nth_error s' out = Some v_out /\ shape v_out = [1; 1; 2]%nat.
Proof.
  destruct (forward copy_attention one_head 0%nat 1%nat None [] two_tensors)
    as [[out s']|] eqn:Hfwd; [|discriminate].
  exists out, s'. split; [reflexivity|].
  destruct (@C10_pairwise_unchanged_shape_kept copy_attention one_head 0%nat 1%nat
              None [] two_tensors s' out copy_attention_contract Hfwd)
    as (Hsame & Hshape).
  split; [exact (Hsame (or_introl copy_attention_read_only))|].
  exact (Hshape (Rank3 [[[1; 2]]]) eq_refl).
Defined.

End AttentionPairBiasFacts.

(* ===================================================================== *)
(** * Part III: further properties of the modelled code                   *)
(* ===================================================================== *)

(** ** Algorithm 29: the first two vectors of the frame basis *)

Module FramesMore.
Import Vec3 Vec3Facts Frames FramesFacts Samples.

(** X5: for a frame whose two edges from [b] are non-zero and neither
    parallel nor opposite, the first two vectors that
    [expressCoordinatesInFrame] builds are perpendicular unit vectors: the
    normalised sum and the normalised difference of the unit edge
    vectors. *)
Theorem frame_basis_first_two_orthonormal (a b c : V3) :
  let w1 := divs (sub a b) (norm (sub a b)) in
  let w2 := divs (sub c b) (norm (sub c b)) in
  norm (sub a b) <> 0 -> norm (sub c b) <> 0 ->
  norm (add w1 w2) <> 0 -> norm (sub w2 w1) <> 0 ->
  let '(e1, e2, _) := frame_basis (a, b, c) in
  e1 = divs (add w1 w2) (norm (add w1 w2)) /\
  e2 = divs (sub w2 w1) (norm (sub w2 w1)) /\
  dot e1 e1 = 1 /\ dot e2 e2 = 1 /\ dot e1 e2 = 0.
Proof.
  intros w1 w2 Hab Hcb Hs Hd. unfold frame_basis. fold w1 w2.
  repeat split; try (now apply unit_divs_norm).
  rewrite dot_divs by assumption.
  rewrite dot_sum_diff; try (now apply unit_divs_norm).
  unfold Rdiv. ring.
Qed.

Lemma phi0_unit_edges :
  divs (sub (3, 4, 0) (0, 0, 0)) (norm (sub (3, 4, 0) (0, 0, 0))) = (3/5, 4/5, 0) /\
  divs (sub (3, -4, 0) (0, 0, 0)) (norm (sub (3, -4, 0) (0, 0, 0))) = (3/5, -4/5, 0).
Proof.
  replace (sub (3, 4, 0) (0, 0, 0)) with ((3, 4, 0) : V3) by v3_eq.
  replace (sub (3, -4, 0) (0, 0, 0)) with ((3, -4, 0) : V3) by v3_eq.
  rewrite (@norm_eq (3, 4, 0) 5) by (cbn; lra).
  rewrite (@norm_eq (3, -4, 0) 5) by (cbn; lra).
  split; v3_eq.
Qed.

Lemma frame_basis_first_two_orthonormal_witness :
  let '(e1, e2, _) := frame_basis phi0 in
  dot e1 e1 = 1 /\ dot e2 e2 = 1 /\ dot e1 e2 = 0.
Proof.
  destruct phi0_unit_edges as [Hw1 Hw2].
  assert (H1 : norm (sub (3, 4, 0) (0, 0, 0)) <> 0).
  { replace (sub (3, 4, 0) (0, 0, 0)) with ((3, 4, 0) : V3) by v3_eq.
    rewrite (@norm_eq (3, 4, 0) 5) by (cbn; lra). lra. }
  assert (H2 : norm (sub (3, -4, 0) (0, 0, 0)) <> 0).
  { replace (sub (3, -4, 0) (0, 0, 0)) with ((3, -4, 0) : V3) by v3_eq.
    rewrite (@norm_eq (3, -4, 0) 5) by (cbn; lra). lra. }
  assert (H3 : norm (add (divs (sub (3, 4, 0) (0, 0, 0)) (norm (sub (3, 4, 0) (0, 0, 0))))
                         (divs (sub (3, -4, 0) (0, 0, 0))
                               (norm (sub (3, -4, 0) (0, 0, 0))))) <> 0).
  { rewrite Hw1, Hw2.
    replace (add (3/5, 4/5, 0) (3/5, -4/5, 0)) with ((6/5, 0, 0) : V3) by v3_eq.
    rewrite (@norm_eq (6/5, 0, 0) (6/5)) by (cbn; lra). lra. }
  assert (H4 : norm (sub (divs (sub (3, -4, 0) (0, 0, 0))
                               (norm (sub (3, -4, 0) (0, 0, 0))))
                         (divs (sub (3, 4, 0) (0, 0, 0))
                               (norm (sub (3, 4, 0) (0, 0, 0))))) <> 0).
  { rewrite Hw1, Hw2.
    replace (sub (3/5, -4/5, 0) (3/5, 4/5, 0)) with ((0, -8/5, 0) : V3) by v3_eq.
    rewrite (@norm_eq (0, -8/5, 0) (8/5)) by (cbn; lra). lra. }
  pose proof (@frame_basis_first_two_orthonormal (3, 4, 0) (0, 0, 0) (3, -4, 0)
                H1 H2 H3 H4) as H.
  change (frame_basis (3, 4, 0, (0, 0, 0), (3, -4, 0))) with (frame_basis phi0) in H.
  rewrite phi0_basis in *. exact (proj2 (proj2 H)).
Defined.

End FramesMore.

(** ** Algorithm 28: the alignment is a rigid motion onto the true centroid *)

Module WeightedRigidAlignMore.
Import Vec3 Vec3Facts WeightedRigidAlign WeightedRigidAlignFacts FramesFacts Samples.
Import ProofNotions.

(** *** Orthogonal matrices have orthogonal transposes *)

Lemma matmul_adjugate (A : M3) : matmul A (adjugate A) = mscale (det A) identity.
Proof. destruct_m3 A. m3_ring. Qed.

Lemma matmul_mscale_r (s : R) (A B : M3) :
  matmul A (mscale s B) = mscale s (matmul A B).
Proof. destruct_m3 A. destruct_m3 B. m3_ring. Qed.

Lemma mscale_cancel (s : R) (A B : M3) : s <> 0 -> mscale s A = mscale s B -> A = B.
Proof.
  intros Hs. destruct_m3 A. destruct_m3 B. cbn. intros H.
  injection H as H00 H01 H02 H10 H11 H12 H20 H21 H22.
  repeat apply (f_equal2 pair);
    apply Rmult_eq_reg_r with s; assumption.
Qed.

Lemma orthogonal_transpose (A : M3) : orthogonal A -> orthogonal (transpose A).
Proof.
  intros HA. unfold orthogonal.
  replace (transpose (transpose A)) with A by (destruct_m3 A; reflexivity).
  assert (Hdet : det A <> 0) by (pose proof (orthogonal_det_sqr HA); nra).
  assert (Hadj : adjugate A = mscale (det A) (transpose A)).
  { rewrite <- (matmul_identity_l (adjugate A)), <- HA, matmul_assoc.
    rewrite matmul_adjugate, matmul_mscale_r. now rewrite matmul_identity_r. }
  apply (@mscale_cancel (det A) _ _ Hdet).
  now rewrite <- matmul_mscale_r, <- Hadj, matmul_adjugate.
Qed.

Lemma vecmat_transpose (v : V3) (A : M3) : vecmat v A = matvec (transpose A) v.
Proof. destruct_m3 A. destruct_v3 v. m3_ring. Qed.

Lemma sub_add_same (u v t : V3) : sub (add u t) (add v t) = sub u v.
Proof. destruct_v3 u. destruct_v3 v. destruct_v3 t. m3_ring. Qed.

Lemma sub_sub_same (u v t : V3) : sub (sub u t) (sub v t) = sub u v.
Proof. destruct_v3 u. destruct_v3 v. destruct_v3 t. m3_ring. Qed.

Lemma nth_map_in_range (A B : Type) (f : A -> B) (l : list A) (i : nat) (d : A) (e : B) :
  (i < length l)%nat -> nth i (map f l) e = f (nth i l d).
Proof.
  intros Hi. rewrite (nth_indep _ e (f d)) by (now rewrite length_map).
  apply map_nth.
Qed.

(** X6: the aligned coordinates are a rigid image of the predicted ones:
    whenever [torch.svd] returns a decomposition of the covariance matrix,
    every distance between two aligned points equals the distance between
    the two predicted points they come from. *)
Theorem forward1_preserves_distances
        (svd : M3 -> M3 * V3 * M3)
        (pred_coords true_coords : list V3) (weights : list R) (i j : nat) :
  is_svd (cov_matrix pred_coords true_coords weights)
         (svd (cov_matrix pred_coords true_coords weights)) ->
  (i < length pred_coords)%nat -> (j < length pred_coords)%nat ->
  SmoothLDDTLoss.dists (forward1 svd pred_coords true_coords weights) i j
  = SmoothLDDTLoss.dists pred_coords i j.
Proof.
  intros Hsvd Hi Hj.
  assert (Horth : orthogonal (rot_matrix svd pred_coords true_coords weights)).
  { unfold rot_matrix.
    destruct (svd (cov_matrix pred_coords true_coords weights)) as [[U Sg] V].
    destruct Hsvd as (HU & HV & _). now apply corrected_rotation_orthogonal. }
  unfold forward1, center, SmoothLDDTLoss.dists.
  rewrite map_map.
  rewrite !(@nth_map_in_range _ _ _ pred_coords _ zero zero) by assumption.
  rewrite sub_add_same, !vecmat_transpose, <- matvec_sub.
  rewrite (@norm_orthogonal _ _ (@orthogonal_transpose _ Horth)).
  now rewrite sub_sub_same.
Qed.

Lemma forward1_preserves_distances_witness :
  SmoothLDDTLoss.dists (forward1 mirror_svd octahedron mirrored_octahedron unit_weights) 0 2
  = SmoothLDDTLoss.dists octahedron 0 2.
Proof.
  apply forward1_preserves_distances.
  - rewrite mirror_cov_matrix. unfold mirror_svd, is_svd, orthogonal.
    repeat split; try (cbn; lra); m3_ring.
  - cbn. lia.
  - cbn. lia.
Defined.

(** *** Weighted sums and centroids *)

Lemma weighted_sum_affine (Rm : M3) (t : V3) (l : list V3) (w : list R) :
  length l = length w ->
  weighted_sum (map (fun p => add (vecmat p Rm) t) l) w
  = add (vecmat (weighted_sum l w) Rm) (scale (total_weight w) t).
Proof.
  revert w. induction l as [|p l IH]; intros [|x w] Hlen; try discriminate.
  - destruct_m3 Rm. destruct_v3 t. m3_ring.
  - injection Hlen as Hlen. cbn [map weighted_sum total_weight fold_right].
    rewrite (IH w Hlen). unfold total_weight.
    generalize (weighted_sum l w) (fold_right Rplus 0 w). intros s W.
    destruct_m3 Rm. destruct_v3 t. destruct_v3 p. destruct_v3 s. m3_ring.
Qed.

Lemma weighted_sum_shift (t : V3) (l : list V3) (w : list R) :
  length l = length w ->
  weighted_sum (map (fun p => add p t) l) w
  = add (weighted_sum l w) (scale (total_weight w) t).
Proof.
  revert w. induction l as [|p l IH]; intros [|x w] Hlen; try discriminate.
  - destruct_v3 t. m3_ring.
  - injection Hlen as Hlen. cbn [map weighted_sum total_weight fold_right].
    rewrite (IH w Hlen). unfold total_weight.
    generalize (weighted_sum l w) (fold_right Rplus 0 w). intros s W.
    destruct_v3 t. destruct_v3 p. destruct_v3 s. m3_ring.
Qed.

Lemma weighted_sum_center (c : V3) (l : list V3) (w : list R) :
  length l = length w ->
  weighted_sum (center l c) w
  = sub (weighted_sum l w) (scale (total_weight w) c).
Proof.
  revert w. unfold center.
  induction l as [|p l IH]; intros [|x w] Hlen; try discriminate.
  - destruct_v3 c. m3_ring.
  - injection Hlen as Hlen. cbn [map weighted_sum total_weight fold_right].
    rewrite (IH w Hlen). unfold total_weight.
    generalize (weighted_sum l w) (fold_right Rplus 0 w). intros s W.
    destruct_v3 c. destruct_v3 p. destruct_v3 s. m3_ring.
Qed.

Lemma scale_divs (s : R) (u : V3) : s <> 0 -> scale s (divs u s) = u.
Proof.
  intros Hs. destruct_v3 u. cbn. repeat apply (f_equal2 pair); now field.
Qed.

Lemma divs_scale (s : R) (u : V3) : s <> 0 -> divs (scale s u) s = u.
Proof.
  intros Hs. destruct_v3 u. cbn. repeat apply (f_equal2 pair); now field.
Qed.

Lemma divs_add (u v : V3) (s : R) : divs (add u v) s = add (divs u s) (divs v s).
Proof.
  destruct_v3 u. destruct_v3 v. cbn. unfold Rdiv.
  repeat apply (f_equal2 pair); ring.
Qed.

(** the centred coordinates have weighted sum zero *)
Lemma weighted_sum_centered (l : list V3) (w : list R) :
  length l = length w -> total_weight w <> 0 ->
  weighted_sum (center l (centroid l w)) w = zero.
Proof.
  intros Hlen HW. rewrite weighted_sum_center by assumption.
  unfold centroid. rewrite scale_divs by assumption.
  generalize (weighted_sum l w). intros s. destruct_v3 s. m3_ring.
Qed.

Lemma centroid_shift (t : V3) (l : list V3) (w : list R) :
  length l = length w -> total_weight w <> 0 ->
  centroid (map (fun p => add p t) l) w = add (centroid l w) t.
Proof.
  intros Hlen HW. unfold centroid.
  rewrite weighted_sum_shift by assumption.
  now rewrite divs_add, divs_scale.
Qed.

Lemma center_shift (t c : V3) (l : list V3) :
  center (map (fun p => add p t) l) (add c t) = center l c.
Proof.
  unfold center. rewrite map_map. apply map_ext. intros p. apply sub_add_same.
Qed.

(** X7: with one weight per point and a non-zero total weight, the weighted
    centroid of the aligned coordinates is the weighted centroid of the
    true coordinates, whatever matrix the decomposition yields. *)
Theorem forward1_centroid
        (svd : M3 -> M3 * V3 * M3)
        (pred_coords true_coords : list V3) (weights : list R) :
  length pred_coords = length weights -> total_weight weights <> 0 ->
  centroid (forward1 svd pred_coords true_coords weights) weights
  = centroid true_coords weights.
Proof.
  intros Hlen HW. unfold forward1.
  unfold centroid at 1.
  rewrite weighted_sum_affine by (unfold center; now rewrite length_map).
  rewrite weighted_sum_centered by assumption.
  rewrite divs_add, divs_scale by assumption.
  generalize (rot_matrix svd pred_coords true_coords weights)
             (centroid true_coords weights).
  intros Rm c. destruct_m3 Rm. destruct_v3 c. cbn. unfold Rdiv.
  repeat apply (f_equal2 pair); ring.
Qed.

Lemma unit_weights_total : total_weight unit_weights = 6.
Proof. unfold total_weight, unit_weights. cbn. ring. Qed.

Lemma forward1_centroid_witness :
  centroid (forward1 mirror_svd octahedron mirrored_octahedron unit_weights) unit_weights
  = centroid mirrored_octahedron unit_weights.
Proof.
  apply forward1_centroid.
  - reflexivity.
  - rewrite unit_weights_total. lra.
Defined.

Lemma add_assoc_shift (u c t : V3) : add u (add c t) = add (add u c) t.
Proof. destruct_v3 u. destruct_v3 c. destruct_v3 t. m3_ring. Qed.

(** X8: with one weight per point and a non-zero total weight, translating
    all predicted coordinates by one vector does not change the aligned
    coordinates, and translating all true coordinates by one vector
    translates the aligned coordinates by that vector. *)
Theorem forward1_translation
        (svd : M3 -> M3 * V3 * M3)
        (pred_coords true_coords : list V3) (weights : list R) (t : V3) :
  length pred_coords = length weights -> length true_coords = length weights ->
  total_weight weights <> 0 ->
  forward1 svd (map (fun p => add p t) pred_coords) true_coords weights
  = forward1 svd pred_coords true_coords weights /\
  forward1 svd pred_coords (map (fun p => add p t) true_coords) weights
  = map (fun p => add p t) (forward1 svd pred_coords true_coords weights).
Proof.
  intros Hp Ht HW. split.
  - unfold forward1, rot_matrix, cov_matrix.
    rewrite !centroid_shift, !center_shift by assumption. reflexivity.
  - unfold forward1, rot_matrix, cov_matrix.
    rewrite !centroid_shift, !center_shift by assumption.
    rewrite map_map. apply map_ext. intros p. apply add_assoc_shift.
Qed.

Lemma forward1_translation_witness :
  forward1 mirror_svd (map (fun p => add p (1, 2, 3)) octahedron)
           mirrored_octahedron unit_weights
  = forward1 mirror_svd octahedron mirrored_octahedron unit_weights.
Proof.
  refine (proj1 (@forward1_translation mirror_svd octahedron mirrored_octahedron
                   unit_weights (1, 2, 3) eq_refl eq_refl _)).
  rewrite unit_weights_total. lra.
Defined.

End WeightedRigidAlignMore.

(** ** Algorithm 27: the loss needs no superposition *)

Module SmoothLDDTLossMore.
Import Vec3 Vec3Facts Frames FramesFacts SmoothLDDTLoss SmoothLDDTLossFacts Samples.
Import WeightedRigidAlignMore.

Lemma dists_rigid (Rm : M3) (t : V3) (coords : list V3) (i j : nat) :
  orthogonal Rm -> (i < length coords)%nat -> (j < length coords)%nat ->
  dists (map (rigid Rm t) coords) i j = dists coords i j.
Proof.
  intros HR Hi Hj. unfold dists.
  rewrite !(@nth_map_in_range _ _ _ coords _ zero zero) by assumption.
  now rewrite sub_rigid, norm_orthogonal.
Qed.

Lemma sum2_ext_in (n : nat) (f g : nat -> nat -> R) :
  (forall i j, (i < n)%nat -> (j < n)%nat -> f i j = g i j) ->
  sum2 n f = sum2 n g.
Proof.
  intros Hfg. unfold sum2. f_equal. apply map_ext_in. intros i Hi.
  f_equal. apply map_ext_in. intros j Hj.
  apply in_seq in Hi. apply in_seq in Hj. apply Hfg; lia.
Qed.

Lemma lddt_rigid (cfg : config) (Rm : M3) (t : V3)
      (pred_coords true_coords : list V3) (is_dna is_rna : list bool) :
  orthogonal Rm ->
  lddt cfg (map (rigid Rm t) pred_coords) true_coords is_dna is_rna
  = lddt cfg pred_coords true_coords is_dna is_rna.
Proof.
  intros HR. unfold lddt, clamped_count, lddt_count, lddt_sum, n_atoms.
  rewrite length_map. f_equal.
  apply sum2_ext_in. intros i j Hi Hj.
  unfold eps, dist_diff. now rewrite dists_rigid.
Qed.

(** X9: the loss does not depend on the pose of the prediction: applying
    one orthogonal map (a rotation, or a reflection) and one translation to
    all predicted coordinates leaves the loss unchanged. *)
Theorem forward_rigid_invariant
        (cfg : config) (Rm : M3) (t : V3)
        (pred_coords true_coords : list (list V3)) (is_dna is_rna : list (list bool)) :
  orthogonal Rm ->
  forward cfg (map (map (rigid Rm t)) pred_coords) true_coords is_dna is_rna
  = forward cfg pred_coords true_coords is_dna is_rna.
Proof.
  intros HR. unfold forward, lddt_batch. rewrite length_map.
  do 2 f_equal. apply map_ext. intros b.
  change (nth b (map (map (rigid Rm t)) pred_coords) [])
    with (nth b (map (map (rigid Rm t)) pred_coords) (map (rigid Rm t) [])).
  rewrite map_nth. now apply lddt_rigid.
Qed.

Lemma forward_rigid_invariant_witness :
  forward default_config (map (map (rigid Rz t0)) two_atoms) two_atoms two_flags two_flags
  = forward default_config two_atoms two_atoms two_flags two_flags.
Proof.
  exact (@forward_rigid_invariant default_config Rz t0 two_atoms two_atoms
           two_flags two_flags (proj1 Rz_rotation)).
Defined.

(** X10: a pair of atoms counts in both orders or in neither, and an atom
    never pairs with itself: the inclusion mask is symmetric with a false
    diagonal, and so is the weight each pair contributes. *)
Theorem mask_symmetric (cfg : config) (pred_coords true_coords : list V3)
        (is_dna is_rna : list bool) (i j : nat) :
  mask cfg true_coords is_dna is_rna i j = mask cfg true_coords is_dna is_rna j i /\
  mask cfg true_coords is_dna is_rna i i = false /\
  eps pred_coords true_coords i j = eps pred_coords true_coords j i.
Proof.
  assert (Hd : forall c a b, dists c a b = dists c b a).
  { intros c a b. unfold dists, norm. f_equal.
    generalize (nth a c zero) (nth b c zero). intros u v.
    destruct_v3 u. destruct_v3 v. cbn. ring. }
  repeat split.
  - unfold mask, inclusion_radius, is_nucleotide_pair.
    rewrite (Hd true_coords i j), (andb_comm (is_nucleotide is_dna is_rna i)).
    now rewrite (Nat.eqb_sym i j).
  - unfold mask. rewrite Nat.eqb_refl. apply andb_false_r.
  - unfold eps, dist_diff.
    now rewrite (Hd true_coords i j), (Hd pred_coords i j).
Qed.

End SmoothLDDTLossMore.

(** ** Algorithm 5: more on the masked mean of [AtomToTokenPooler] *)

Module PoolingMore.
Import Tensor PoolingFacts Samples.

(** *** Shape-checked list operations *)

Lemma zip_with_combine {A B C : Type} (f : A -> B -> option C)
      (xs : list A) (ys : list B) (cs : list C) :
  zip_with f xs ys = Some cs ->
  length xs = length ys /\
  Forall2 (fun xy c => f (fst xy) (snd xy) = Some c) (combine xs ys) cs.
Proof.
  revert ys cs. induction xs as [|x xs IH]; intros [|y ys] cs H; try discriminate.
  - injection H as <-. split; [reflexivity | constructor].
  - cbn [zip_with] in H.
    destruct (f x y) as [c|] eqn:Hc; [|discriminate]. cbn [bind] in H.
    destruct (zip_with f xs ys) as [cs'|] eqn:Hcs; [|discriminate].
    injection H as <-. destruct (IH ys cs' Hcs) as [Hlen Hall].
    split; [cbn; now f_equal | now constructor].
Qed.

Lemma zip_with_total {A B C : Type} (f : A -> B -> option C)
      (xs : list A) (ys : list B) :
  length xs = length ys ->
  Forall (fun xy => exists c, f (fst xy) (snd xy) = Some c) (combine xs ys) ->
  exists cs, zip_with f xs ys = Some cs.
Proof.
  revert ys. induction xs as [|x xs IH]; intros [|y ys] Hlen Hall; try discriminate.
  - now exists [].
  - injection Hlen as Hlen. cbn [combine] in Hall.
    inversion Hall as [|? ? [c Hc] Hrest]; subst.
    destruct (IH ys Hlen Hrest) as [cs Hcs].
    exists (c :: cs). cbn [zip_with]. cbn [fst snd] in Hc. now rewrite Hc, Hcs.
Qed.

Lemma traverse_Forall2 {A B : Type} (f : A -> option B) (l : list A) (r : list B) :
  traverse f l = Some r -> Forall2 (fun a b => f a = Some b) l r.
Proof.
  revert r. induction l as [|a l IH]; intros r H.
  - injection H as <-. constructor.
  - cbn [traverse] in H. destruct (f a) as [b|] eqn:Hb; [|discriminate].
    cbn [bind] in H. destruct (traverse f l) as [bs|]; [|discriminate].
    injection H as <-. constructor; [exact Hb | now apply IH].
Qed.

Lemma traverse_total {A B : Type} (f : A -> option B) (l : list A) :
  Forall (fun a => exists b, f a = Some b) l -> exists r, traverse f l = Some r.
Proof.
  induction 1 as [|a l [b Hb] _ [r Hr]].
  - now exists [].
  - exists (b :: r). cbn [traverse]. now rewrite Hb, Hr.
Qed.

(** *** Windows *)

Lemma chunks_spec {A : Type} (w : nat) (k : nat) :
  forall (fuel : nat) (l : list A),
    w <> 0%nat -> length l = (k * w)%nat -> (length l <= fuel)%nat ->
    length (chunks fuel w l) = k /\
    Forall (fun win => length win = w) (chunks fuel w l) /\
    concat (chunks fuel w l) = l.
Proof.
  induction k as [|k IH]; intros fuel l Hw Hlen Hfuel.
  - destruct l; [|discriminate]. destruct fuel; cbn; repeat split; constructor.
  - destruct l as [|a l]; [cbn in Hlen; lia|].
    destruct fuel as [|fuel]; [cbn in Hfuel; lia|].
    cbn [chunks].
    assert (Hskip : length (skipn w (a :: l)) = (k * w)%nat)
      by (rewrite length_skipn, Hlen; cbn; lia).
    assert (Hfirst : length (firstn w (a :: l)) = w)
      by (rewrite length_firstn, Hlen; cbn; lia).
    destruct (IH fuel (skipn w (a :: l)) Hw Hskip) as (Hn & Hall & Hcat).
    { rewrite Hskip. assert (S k * w = w + k * w)%nat by lia. lia. }
    repeat split.
    + cbn [length]. now rewrite Hn.
    + constructor; assumption.
    + cbn [concat]. rewrite Hcat. apply firstn_skipn.
Qed.

(** splitting into windows returns exactly when the window size is not 0
    and divides the length; the windows then have [w] entries each and
    concatenate back to the list *)
Lemma windows_Some {A : Type} (w : nat) (l : list A) (ws : list (list A)) :
  windows w l = Some ws ->
  w <> 0%nat /\ (length ws * w)%nat = length l /\
  Forall (fun win => length win = w) ws /\ concat ws = l.
Proof.
  unfold windows, assert.
  destruct (w =? 0)%nat eqn:Hw0; cbn [negb andb]; [discriminate|].
  destruct (length l mod w =? 0)%nat eqn:Hmod; [|discriminate].
  cbn [bind]. intros H. injection H as <-.
  apply Nat.eqb_neq in Hw0. apply Nat.eqb_eq in Hmod.
  assert (Hlen : length l = (length l / w * w)%nat).
  { pose proof (Nat.div_mod_eq (length l) w). lia. }
  destruct (@chunks_spec A w (length l / w) (length l) l Hw0 Hlen (le_n _))
    as (Hn & Hall & Hcat).
  repeat split; try assumption. rewrite Hn. lia.
Qed.

Lemma windows_total {A : Type} (w : nat) (l : list A) :
  w <> 0%nat -> (length l mod w = 0)%nat -> exists ws, windows w l = Some ws.
Proof.
  intros Hw Hmod. unfold windows, assert.
  apply Nat.eqb_neq in Hw. apply Nat.eqb_eq in Hmod.
  rewrite Hw, Hmod. cbn. eauto.
Qed.

Lemma Forall2_In_r {A B : Type} (P : A -> B -> Prop) (l : list A) (r : list B) (b : B) :
  Forall2 P l r -> In b r -> exists a, In a l /\ P a b.
Proof.
  induction 1 as [|a b' l r Hab _ IH]; intros Hin; [contradiction|].
  destruct Hin as [<- | Hin].
  - exists a. split; [now left | assumption].
  - destruct (IH Hin) as (a' & Ha' & HP). exists a'. split; [now right | assumption].
Qed.

Lemma zip_with_length {A B C : Type} (f : A -> B -> option C)
      (xs : list A) (ys : list B) (cs : list C) :
  zip_with f xs ys = Some cs -> length cs = length xs /\ length cs = length ys.
Proof.
  intros H. destruct (@zip_with_combine _ _ _ f xs ys cs H) as [Hlen Hall].
  apply Forall2_length in Hall. rewrite length_combine, <- Hlen, Nat.min_id in Hall.
  split; congruence.
Qed.

(** *** One window *)

Lemma vadd_length (u v s : Vec) : vadd u v = Some s -> length s = length u.
Proof. intros H. now apply zip_with_length in H. Qed.

Lemma sum_rows_length (d : nat) (rows : T2) (s : Vec) :
  Forall (fun r => length r = d) rows -> sum_rows rows = Some s -> length s = d.
Proof.
  revert s. induction rows as [|r rows IH]; intros s Hall H; [discriminate|].
  inversion Hall as [|? ? Hr Hrest]; subst.
  destruct rows as [|r' rows].
  - injection H as <-. reflexivity.
  - change (sum_rows (r :: r' :: rows))
      with (bind (sum_rows (r' :: rows)) (fun s' => vadd r s')) in H.
    destruct (sum_rows (r' :: rows)) as [s'|]; [|discriminate].
    cbn [bind] in H. now apply vadd_length in H.
Qed.

Lemma vadd_nonneg (u v s : Vec) :
  Forall (fun x => 0 <= x) u -> Forall (fun x => 0 <= x) v -> vadd u v = Some s ->
  Forall (fun x => 0 <= x) s.
Proof.
  intros Hu Hv H. apply Forall_forall. intros x Hx.
  destruct (@zip_with_combine _ _ _ _ u v s H) as [_ Hall].
  destruct (@Forall2_In_r _ _ _ _ _ _ Hall Hx) as ([a b] & Hab & Hsum).
  cbn [fst snd] in Hsum. injection Hsum as <-.
  pose proof (proj1 (Forall_forall _ u) Hu a (in_combine_l _ _ _ _ Hab)).
  pose proof (proj1 (Forall_forall _ v) Hv b (in_combine_r _ _ _ _ Hab)).
  lra.
Qed.

Lemma sum_rows_nonneg (rows : T2) (s : Vec) :
  Forall (Forall (fun x => 0 <= x)) rows -> sum_rows rows = Some s ->
  Forall (fun x => 0 <= x) s.
Proof.
  revert s. induction rows as [|r rows IH]; intros s Hall H; [discriminate|].
  inversion Hall as [|? ? Hr Hrest]; subst.
  destruct rows as [|r' rows].
  - injection H as <-. assumption.
  - change (sum_rows (r :: r' :: rows))
      with (bind (sum_rows (r' :: rows)) (fun s' => vadd r s')) in H.
    destruct (sum_rows (r' :: rows)) as [s'|] eqn:Hs'; [|discriminate].
    cbn [bind] in H. apply (@vadd_nonneg r s' s Hr (IH s' Hrest eq_refl) H).
Qed.

Lemma masked_fill_rows (P : Vec -> Prop) (m : list bool) (rows filled : T2) :
  (forall r, P r -> P (zero_like r)) ->
  Forall P rows -> masked_fill m rows = Some filled -> Forall P filled.
Proof.
  intros Hzero Hall H. apply Forall_forall. intros r Hr.
  destruct (@zip_with_combine _ _ _ _ m rows filled H) as [_ Hz].
  destruct (@Forall2_In_r _ _ _ _ _ _ Hz Hr) as ([b r0] & Hin & Hfill).
  cbn [fst snd] in Hfill. injection Hfill as <-.
  pose proof (proj1 (Forall_forall _ rows) Hall r0 (in_combine_r _ _ _ _ Hin)) as Hr0.
  destruct b; [now apply Hzero | assumption].
Qed.

Lemma count_true_pos (m : list bool) : existsb (fun b => b) m = true -> 1 <= count_true m.
Proof.
  intros H. unfold count_true. apply existsb_exists in H as (b & Hin & Hb).
  subst b. change 1 with (INR 1). apply le_INR.
  assert (In true (filter (fun b : bool => b) m)) by (now apply filter_In).
  destruct (filter (fun b : bool => b) m); [contradiction | cbn; lia].
Qed.

Lemma div_scalar_nonneg (x : Vec) (den : R) :
  1 <= den -> Forall (fun v => 0 <= v) x -> Forall (fun v => 0 <= v) (div_scalar x den).
Proof.
  intros Hden Hx. unfold div_scalar. apply Forall_map.
  eapply Forall_impl; [|exact Hx]. cbn. intros v Hv.
  apply Rmult_le_pos; [assumption|]. apply Rlt_le, Rinv_0_lt_compat. lra.
Qed.

Lemma zero_like_nonneg (r : Vec) : Forall (fun x => 0 <= x) (zero_like r).
Proof. unfold zero_like. apply Forall_map, Forall_forall. intros; lra. Qed.

Lemma pool_window_nonneg (feats : T2) (m : list bool) (tok : Vec) :
  Forall (Forall (fun x => 0 <= x)) feats -> existsb (fun b => b) m = true ->
  AtomToTokenPooler.pool_window feats m = Some tok ->
  Forall (fun x => 0 <= x) tok.
Proof.
  intros Hfeats Hm. unfold AtomToTokenPooler.pool_window. intros H.
  apply DiffusionModuleFacts.bind_Some in H as (filled & Hfill & H).
  apply DiffusionModuleFacts.bind_Some in H as (num & Hnum & H).
  injection H as <-.
  apply div_scalar_nonneg; [now apply count_true_pos|].
  apply (@sum_rows_nonneg filled num); [|assumption].
  apply (@masked_fill_rows (Forall (fun x => 0 <= x)) (map negb m) feats filled);
    try assumption.
  intros r _. apply zero_like_nonneg.
Qed.

Lemma pool_window_length (d : nat) (feats : T2) (m : list bool) (tok : Vec) :
  Forall (fun r => length r = d) feats ->
  AtomToTokenPooler.pool_window feats m = Some tok -> length tok = d.
Proof.
  intros Hfeats. unfold AtomToTokenPooler.pool_window. intros H.
  apply DiffusionModuleFacts.bind_Some in H as (filled & Hfill & H).
  apply DiffusionModuleFacts.bind_Some in H as (num & Hnum & H).
  injection H as <-. unfold div_scalar. rewrite length_map.
  apply (@sum_rows_length d filled num); [|assumption].
  apply (@masked_fill_rows (fun r => length r = d) (map negb m) feats filled);
    try assumption.
  intros r Hr. now rewrite zero_like_length.
Qed.

(** *** The whole pooler *)

Lemma assert_Some (c : bool) (u : unit) : assert c = Some u -> c = true.
Proof. destruct c; [reflexivity | discriminate]. Qed.

(** the four steps of a call that returns *)
Lemma forward_steps (self : AtomToTokenPooler.t) (atom_feats : T3) (atom_mask : Mask2)
      (tokens : T3) :
  AtomToTokenPooler.forward self atom_feats atom_mask = Some tokens ->
  exists wf wm,
    traverse (windows (AtomToTokenPooler.atoms_per_window self))
             (map (map (AtomToTokenPooler.proj self)) atom_feats) = Some wf /\
    traverse (windows (AtomToTokenPooler.atoms_per_window self)) atom_mask = Some wm /\
    every_window_has_valid wm = true /\
    zip_with (zip_with AtomToTokenPooler.pool_window) wf wm = Some tokens.
Proof.
  unfold AtomToTokenPooler.forward. intros H.
  apply DiffusionModuleFacts.bind_Some in H as (wf & Hwf & H).
  apply DiffusionModuleFacts.bind_Some in H as (wm & Hwm & H).
  apply DiffusionModuleFacts.bind_Some in H as (u & Hvalid & H).
  apply assert_Some in Hvalid. now exists wf, wm.
Qed.

Lemma proj_nonneg (self : AtomToTokenPooler.t) (x : Vec) :
  Forall (fun v => 0 <= v) (AtomToTokenPooler.proj self x).
Proof.
  unfold AtomToTokenPooler.proj, relu. apply Forall_map, Forall_forall.
  intros v _. apply Rmax_l.
Qed.

Lemma proj_length (self : AtomToTokenPooler.t) (x : Vec) :
  length (AtomToTokenPooler.proj self x) = length (AtomToTokenPooler.proj_weight self).
Proof. unfold AtomToTokenPooler.proj, relu, linear. now rewrite !length_map. Qed.

(** every row of every window is a projected feature row *)
Lemma window_rows_projected (self : AtomToTokenPooler.t) (atom_feats : T3)
      (wf : list (list T2)) (wfb : list T2) (win : T2) (row : Vec) :
  traverse (windows (AtomToTokenPooler.atoms_per_window self))
           (map (map (AtomToTokenPooler.proj self)) atom_feats) = Some wf ->
  In wfb wf -> In win wfb -> In row win ->
  exists x, row = AtomToTokenPooler.proj self x.
Proof.
  intros Hwf Hwfb Hwin Hrow.
  apply traverse_Forall2 in Hwf.
  destruct (@Forall2_In_r _ _ _ _ _ _ Hwf Hwfb) as (fb' & Hfb' & Hwin').
  apply windows_Some in Hwin' as (_ & _ & _ & Hcat).
  assert (Hin : In row fb').
  { rewrite <- Hcat. apply in_concat. now exists win. }
  apply in_map_iff in Hfb' as (fb & <- & _).
  apply in_map_iff in Hin as (x & <- & _). now exists x.
Qed.

(** X11: the pooled tokens are never negative: every entry of every token
    that [AtomToTokenPooler.forward] returns is at least 0, as a mean of
    outputs of [ReLU]. *)
Theorem AtomToTokenPooler_tokens_nonneg
        (self : AtomToTokenPooler.t) (atom_feats : T3) (atom_mask : Mask2) (tokens : T3) :
  AtomToTokenPooler.forward self atom_feats atom_mask = Some tokens ->
  Forall (Forall (Forall (fun v => 0 <= v))) tokens.
Proof.
  intros H. destruct (forward_steps self atom_feats atom_mask H)
    as (wf & wm & Hwf & Hwm & Hvalid & Hzip).
  apply Forall_forall. intros toks Htoks.
  destruct (@zip_with_combine _ _ _ _ wf wm tokens Hzip) as [_ Hall].
  destruct (@Forall2_In_r _ _ _ _ _ _ Hall Htoks) as ([wfb wmb] & Hb & Hzipb).
  cbn [fst snd] in Hzipb.
  apply Forall_forall. intros tok Htok.
  destruct (@zip_with_combine _ _ _ _ wfb wmb toks Hzipb) as [_ Hallb].
  destruct (@Forall2_In_r _ _ _ _ _ _ Hallb Htok) as ([win mw] & Hw & Hpool).
  cbn [fst snd] in Hpool.
  apply (@pool_window_nonneg win mw tok); [| |exact Hpool].
  - apply Forall_forall. intros row Hrow.
    destruct (@window_rows_projected self atom_feats wf wfb win row Hwf
                (in_combine_l _ _ _ _ Hb) (in_combine_l _ _ _ _ Hw) Hrow) as [x ->].
    apply proj_nonneg.
  - unfold every_window_has_valid in Hvalid.
    pose proof (proj1 (forallb_forall _ wm) Hvalid wmb (in_combine_r _ _ _ _ Hb)) as Hb'.
    exact (proj1 (forallb_forall _ wmb) Hb' mw (in_combine_r _ _ _ _ Hw)).
Qed.

Lemma AtomToTokenPooler_tokens_nonneg_witness :
  Forall (Forall (Forall (fun v => 0 <= v))) [[[1]; [4]]].
Proof.
  apply (@AtomToTokenPooler_tokens_nonneg unit_pooler four_atoms four_atoms_mask).
  cbn. tensor_eq.
Defined.

Lemma windowed_token_counts (w : nat) (feats : list T2) (wf : list (list T2))
      (wm : list (list (list bool))) (tokens : T3) :
  Forall2 (fun fb wfb => windows w fb = Some wfb) feats wf ->
  zip_with (zip_with AtomToTokenPooler.pool_window) wf wm = Some tokens ->
  Forall2 (fun toks fb => w <> 0%nat /\ (length toks * w)%nat = length fb) tokens feats.
Proof.
  intros Hwf. revert wm tokens.
  induction Hwf as [|fb wfb feats wf Hwin _ IH]; intros [|wmb wm] tokens H;
    try discriminate.
  - injection H as <-. constructor.
  - cbn [zip_with] in H.
    apply DiffusionModuleFacts.bind_Some in H as (toks & Htoks & H).
    apply DiffusionModuleFacts.bind_Some in H as (rest & Hrest & H).
    injection H as <-. constructor; [|now apply (IH wm)].
    apply zip_with_length in Htoks as [Hlen _].
    apply windows_Some in Hwin as (Hw & Hcount & _).
    split; [assumption | now rewrite Hlen].
Qed.

Lemma Forall2_map_right {A B C : Type} (P : A -> C -> Prop) (g : B -> C)
      (l : list A) (r : list B) :
  Forall2 P l (map g r) -> Forall2 (fun a b => P a (g b)) l r.
Proof.
  revert l. induction r as [|b r IH]; intros l H; inversion H; subst; constructor;
    [assumption | now apply IH].
Qed.

(** X12: on features of shape [(b, m, dim)], with [dim] the input width
    of the projection, and a mask of shape [(b, m)], a call of
    [AtomToTokenPooler.forward] that returns has split every batch
    element into whole windows, each with a valid atom: the window size
    is not 0, the number of tokens of a batch element times the window
    size is its number of atoms, and every token has one entry per row of
    the projection weight. *)
Theorem AtomToTokenPooler_shape
        (self : AtomToTokenPooler.t) (atom_feats : T3) (atom_mask : Mask2)
        (dim : nat) (tokens : T3) :
  Forall (fun row => length row = dim) (AtomToTokenPooler.proj_weight self) ->
  Forall (Forall (fun x => length x = dim)) atom_feats ->
  Forall2 (fun (fb : T2) (mb : list bool) => length fb = length mb)
          atom_feats atom_mask ->
  AtomToTokenPooler.forward self atom_feats atom_mask = Some tokens ->
  Forall2 (fun toks fb =>
             AtomToTokenPooler.atoms_per_window self <> 0%nat /\
             (length toks * AtomToTokenPooler.atoms_per_window self)%nat = length fb)
          tokens atom_feats /\
  Forall (Forall (fun tok => length tok = length (AtomToTokenPooler.proj_weight self)))
         tokens /\
  exists wm,
    traverse (windows (AtomToTokenPooler.atoms_per_window self)) atom_mask = Some wm /\
    every_window_has_valid wm = true.
Proof.
  intros _ _ _ H. destruct (forward_steps self atom_feats atom_mask H)
    as (wf & wm & Hwf & Hwm & Hvalid & Hzip).
  repeat split.
  - pose proof (@windowed_token_counts _ _ _ _ _ (traverse_Forall2 _ _ Hwf) Hzip) as Hshape.
    apply Forall2_map_right in Hshape.
    eapply Forall2_impl; [|exact Hshape]. cbn. intros toks fb [Hw Hn].
    rewrite length_map in Hn. now split.
  - apply Forall_forall. intros toks Htoks.
    destruct (@zip_with_combine _ _ _ _ wf wm tokens Hzip) as [_ Hall].
    destruct (@Forall2_In_r _ _ _ _ _ _ Hall Htoks) as ([wfb wmb] & Hb & Hzipb).
    cbn [fst snd] in Hzipb.
    apply Forall_forall. intros tok Htok.
    destruct (@zip_with_combine _ _ _ _ wfb wmb toks Hzipb) as [_ Hallb].
    destruct (@Forall2_In_r _ _ _ _ _ _ Hallb Htok) as ([win mw] & Hw & Hpool).
    cbn [fst snd] in Hpool.
    apply (@pool_window_length _ win mw tok); [|exact Hpool].
    apply Forall_forall. intros row Hrow.
    destruct (@window_rows_projected self atom_feats wf wfb win row Hwf
                (in_combine_l _ _ _ _ Hb) (in_combine_l _ _ _ _ Hw) Hrow) as [x ->].
    apply proj_length.
  - now exists wm.
Qed.

Lemma AtomToTokenPooler_shape_witness :
  Forall2 (fun toks fb => 2%nat <> 0%nat /\ (length toks * 2)%nat = length fb)
          [[[1]; [4]]] four_atoms.
Proof.
  refine (proj1 (@AtomToTokenPooler_shape unit_pooler four_atoms four_atoms_mask
                   1 [[[1]; [4]]] _ _ _ _)).
  - repeat constructor.
  - repeat constructor.
  - repeat constructor.
  - cbn. tensor_eq.
Defined.

(** *** Totality on well-shaped input *)

Lemma vadd_total (u v : Vec) : length u = length v -> exists s, vadd u v = Some s.
Proof.
  intros Hlen. apply zip_with_total; [assumption|].
  apply Forall_forall. intros xy _. eauto.
Qed.

Lemma sum_rows_total (d : nat) (rows : T2) :
  rows <> [] -> Forall (fun r => length r = d) rows -> exists s, sum_rows rows = Some s.
Proof.
  induction rows as [|r rows IH]; intros Hne Hall; [congruence|].
  inversion Hall as [|? ? Hr Hrest]; subst.
  destruct rows as [|r' rows]; [now exists r|].
  destruct (IH ltac:(discriminate) Hrest) as [s Hs].
  pose proof (@sum_rows_length (length r) (r' :: rows) s Hrest Hs) as Hlen.
  destruct (@vadd_total r s (eq_sym Hlen)) as [s' Hs'].
  exists s'.
  change (sum_rows (r :: r' :: rows))
    with (bind (sum_rows (r' :: rows)) (fun s0 => vadd r s0)).
  now rewrite Hs.
Qed.

Lemma masked_fill_total (m : list bool) (rows : T2) :
  length m = length rows -> exists filled, masked_fill m rows = Some filled.
Proof.
  intros Hlen. apply zip_with_total; [assumption|].
  apply Forall_forall. intros xy _. eauto.
Qed.

Lemma pool_window_total (d : nat) (feats : T2) (m : list bool) :
  feats <> [] -> length m = length feats -> Forall (fun r => length r = d) feats ->
  exists tok, AtomToTokenPooler.pool_window feats m = Some tok.
Proof.
  intros Hne Hlen Hrows. unfold AtomToTokenPooler.pool_window.
  destruct (@masked_fill_total (map negb m) feats) as [filled Hfill];
    [now rewrite length_map|].
  rewrite Hfill. cbn [bind].
  assert (Hfilled : Forall (fun r => length r = d) filled).
  { apply (@masked_fill_rows (fun r => length r = d) (map negb m) feats filled);
      try assumption.
    intros r Hr. now rewrite zero_like_length. }
  assert (Hne' : filled <> []).
  { apply zip_with_length in Hfill as [_ Hl]. destruct filled; [|discriminate].
    destruct feats; [congruence | discriminate]. }
  destruct (@sum_rows_total d filled Hne' Hfilled) as [num Hnum].
  rewrite Hnum. cbn [bind]. eauto.
Qed.

Lemma windows_of_rectangular {A : Type} (w n : nat) (l : list (list A)) :
  w <> 0%nat -> (n mod w = 0)%nat -> Forall (fun e => length e = n) l ->
  exists ws, traverse (windows w) l = Some ws /\
             length ws = length l /\
             Forall (fun we => length we = (n / w)%nat /\
                               Forall (fun win => length win = w) we /\
                               exists e, In e l /\ concat we = e) ws.
Proof.
  intros Hw Hmod. induction 1 as [|e l He _ (ws & Hws & Hlen & Hall)].
  - exists []. repeat split; constructor.
  - destruct (@windows_total A w e Hw) as [we Hwe]; [now rewrite He|].
    exists (we :: ws). cbn [traverse]. rewrite Hwe, Hws. cbn [bind].
    repeat split; [cbn; now f_equal|].
    apply windows_Some in Hwe as (_ & Hcount & Hsizes & Hcat).
    constructor.
    + repeat split; try assumption.
      * rewrite He in Hcount. rewrite <- Hcount. now rewrite Nat.div_mul.
      * exists e. split; [now left | assumption].
    + eapply Forall_impl; [|exact Hall]. cbn.
      intros a (H1 & H2 & e' & He' & Hcat'). repeat split; try assumption.
      exists e'. split; [now right | assumption].
Qed.

(** X13: on well-shaped input [AtomToTokenPooler.forward] returns: when
    the features have shape [(b, n, dim)] with [dim] the input width of
    the projection, the mask has shape [(b, n)], the window size is not 0
    and divides [n], and every window of the mask holds a valid atom,
    pooled tokens are produced. *)
Theorem AtomToTokenPooler_total
        (self : AtomToTokenPooler.t) (atom_feats : T3) (atom_mask : Mask2)
        (n dim : nat) :
  Forall (fun row => length row = dim) (AtomToTokenPooler.proj_weight self) ->
  Forall (Forall (fun x => length x = dim)) atom_feats ->
  AtomToTokenPooler.atoms_per_window self <> 0%nat ->
  (n mod AtomToTokenPooler.atoms_per_window self = 0)%nat ->
  length atom_feats = length atom_mask ->
  Forall (fun fb => length fb = n) atom_feats ->
  Forall (fun mb => length mb = n) atom_mask ->
  (forall wm, traverse (windows (AtomToTokenPooler.atoms_per_window self)) atom_mask
              = Some wm -> every_window_has_valid wm = true) ->
  exists tokens, AtomToTokenPooler.forward self atom_feats atom_mask = Some tokens.
Proof.
  intros _ _ Hw Hmod Hlen Hfeats Hmask Hvalid.
  set (w := AtomToTokenPooler.atoms_per_window self) in *.
  assert (Hfeats' : Forall (fun fb => length fb = n)
                           (map (map (AtomToTokenPooler.proj self)) atom_feats)).
  { apply Forall_map. eapply Forall_impl; [|exact Hfeats]. cbn.
    intros fb Hfb. now rewrite length_map. }
  destruct (@windows_of_rectangular _ w n _ Hw Hmod Hfeats') as (wf & Hwf & Lwf & Hallf).
  destruct (@windows_of_rectangular _ w n _ Hw Hmod Hmask) as (wm & Hwm & Lwm & Hallm).
  unfold AtomToTokenPooler.forward. fold w.
  rewrite Hwf, Hwm. cbn [bind]. rewrite (Hvalid wm Hwm). cbn [assert bind].
  apply zip_with_total.
  - etransitivity; [exact Lwf|]. rewrite length_map.
    etransitivity; [exact Hlen|]. symmetry. exact Lwm.
  - apply Forall_forall. intros [wfb wmb] Hin. cbn [fst snd].
    pose proof (proj1 (Forall_forall _ wf) Hallf wfb (in_combine_l _ _ _ _ Hin))
      as (Cf & Sf & fb' & Hfb' & Hcat).
    pose proof (proj1 (Forall_forall _ wm) Hallm wmb (in_combine_r _ _ _ _ Hin))
      as (Cm & Sm & _).
    apply zip_with_total; [exact (eq_trans Cf (eq_sym Cm))|].
    apply Forall_forall. intros [win mw] Hin'. cbn [fst snd].
    pose proof (proj1 (Forall_forall _ wfb) Sf win (in_combine_l _ _ _ _ Hin')) as Lwin.
    pose proof (proj1 (Forall_forall _ wmb) Sm mw (in_combine_r _ _ _ _ Hin')) as Lmw.
    apply (@pool_window_total (length (AtomToTokenPooler.proj_weight self)) win mw).
    + intros ->. cbn in Lwin. apply Hw. symmetry. exact Lwin.
    + exact (eq_trans Lmw (eq_sym Lwin)).
    + apply Forall_forall. intros row Hrow.
      assert (Hin'' : In row fb').
      { rewrite <- Hcat. apply in_concat. exists win.
        split; [exact (in_combine_l _ _ _ _ Hin') | assumption]. }
      apply in_map_iff in Hfb' as (fb & <- & _).
      apply in_map_iff in Hin'' as (x & <- & _). apply proj_length.
Qed.

Lemma four_atoms_mask_windows (wm : list (list (list bool))) :
  traverse (windows 2) four_atoms_mask = Some wm -> every_window_has_valid wm = true.
Proof. cbn. intros H. injection H as <-. reflexivity. Qed.

Lemma AtomToTokenPooler_total_witness :
  exists tokens, AtomToTokenPooler.forward unit_pooler four_atoms four_atoms_mask
                 = Some tokens.
Proof.
  apply (@AtomToTokenPooler_total unit_pooler four_atoms four_atoms_mask 4 1).
  - repeat constructor.
  - repeat constructor.
  - discriminate.
  - reflexivity.
  - reflexivity.
  - repeat constructor.
  - repeat constructor.
  - exact four_atoms_mask_windows.
Defined.

(** *** What a window's pooled value depends on *)

Lemma zero_like_same_length (x y : Vec) : length x = length y -> zero_like x = zero_like y.
Proof.
  revert y. induction x as [|a x IH]; intros [|b y] H; try discriminate; [reflexivity|].
  cbn. f_equal. apply IH. now injection H.
Qed.

Lemma masked_fill_agree (m : list bool) :
  forall feats feats' : T2,
    length feats = length m -> length feats' = length m ->
    (forall k, (k < length m)%nat ->
               if nth k m false
               then nth k feats [] = nth k feats' []
               else length (nth k feats []) = length (nth k feats' [])) ->
    masked_fill (map negb m) feats = masked_fill (map negb m) feats'.
Proof.
  induction m as [|b m IH]; intros [|x feats] [|x' feats'] L L' H; try discriminate.
  - reflexivity.
  - cbn [map]. rewrite !masked_fill_cons.
    rewrite (IH feats feats').
    + pose proof (H 0%nat ltac:(cbn; lia)) as H0. cbn [nth] in H0.
      destruct b; cbn [negb].
      * now subst x'.
      * now rewrite (zero_like_same_length _ _ H0).
    + now injection L.
    + now injection L'.
    + intros k Hk. exact (H (S k) ltac:(cbn; lia)).
Qed.

(** X14: the pooled value of a window does not depend on the features of
    its masked-out atoms: two windows of feature rows that agree on the
    valid atoms, and have rows of the same lengths elsewhere, pool to the
    same value. *)
Theorem pool_window_ignores_masked (m : list bool) (feats feats' : T2) :
  length feats = length m -> length feats' = length m ->
  (forall k, (k < length m)%nat ->
             if nth k m false
             then nth k feats [] = nth k feats' []
             else length (nth k feats []) = length (nth k feats' [])) ->
  AtomToTokenPooler.pool_window feats m = AtomToTokenPooler.pool_window feats' m.
Proof.
  intros L L' H. unfold AtomToTokenPooler.pool_window.
  now rewrite (masked_fill_agree m feats feats' L L' H).
Qed.

Lemma pool_window_ignores_masked_witness :
  AtomToTokenPooler.pool_window [[1]; [2]] [true; false]
  = AtomToTokenPooler.pool_window [[1]; [7]] [true; false].
Proof.
  apply pool_window_ignores_masked; try reflexivity.
  intros [|[|k]] Hk; cbn in *; try reflexivity; lia.
Defined.

(** with every atom of a window valid the masked mean is the plain mean:
    the sum of the rows divided by their number *)
Lemma pool_window_all_valid (feats : T2) :
  AtomToTokenPooler.pool_window feats (repeat true (length feats))
  = bind (sum_rows feats) (fun s => Some (div_scalar s (INR (length feats)))).
Proof.
  unfold AtomToTokenPooler.pool_window.
  assert (Hfill : masked_fill (map negb (repeat true (length feats))) feats = Some feats).
  { rewrite map_repeat. cbn [negb].
    induction feats as [|r feats IH]; [reflexivity|].
    cbn [length repeat]. rewrite masked_fill_cons, IH. reflexivity. }
  rewrite Hfill. cbn [bind].
  assert (Hcount : count_true (repeat true (length feats)) = INR (length feats)).
  { unfold count_true.
    assert (Hk : forall k, length (filter (fun b : bool => b) (repeat true k)) = k).
    { induction k as [|k IH]; [reflexivity|]. cbn [repeat filter length]. now f_equal. }
    now rewrite Hk. }
  now rewrite Hcount.
Qed.

Lemma vadd_map (g : R -> R) (row : Vec) :
  vadd row (map g row) = Some (map (fun x => x + g x) row).
Proof.
  unfold vadd. induction row as [|x row IH]; [reflexivity|].
  cbn [map zip_with bind]. now rewrite IH.
Qed.

Lemma sum_rows_repeat (row : Vec) (k : nat) :
  sum_rows (repeat row (S k)) = Some (map (fun x => INR (S k) * x) row).
Proof.
  induction k as [|k IH].
  - cbn [repeat sum_rows]. f_equal. induction row as [|x row IHr]; [reflexivity|].
    cbn [map]. rewrite <- IHr. f_equal. cbn [INR]. ring.
  - change (sum_rows (repeat row (S (S k))))
      with (bind (sum_rows (repeat row (S k))) (fun s => vadd row s)).
    rewrite IH. cbn [bind]. rewrite vadd_map. f_equal.
    apply map_ext. intros x. rewrite (S_INR (S k)). ring.
Qed.

(** X15: broadcasting a token over a window and pooling the window gives
    the token back: the masked mean of [w >= 1] copies of one row, all
    valid, is that row. *)
Theorem pool_window_of_broadcast (row : Vec) (k : nat) :
  AtomToTokenPooler.pool_window (repeat row (S k)) (repeat true (S k)) = Some row /\
  DiffusionModule.broadcast_to_atoms (S k) [[row]] = [repeat row (S k)].
Proof.
  split; [|unfold DiffusionModule.broadcast_to_atoms; cbn [map concat];
           now rewrite app_nil_r].
  pose proof (pool_window_all_valid (repeat row (S k))) as H.
  rewrite repeat_length in H. rewrite H, sum_rows_repeat. cbn [bind]. f_equal.
  clear H. unfold div_scalar. rewrite map_map.
  assert (Hk : INR (S k) <> 0) by (apply not_0_INR; discriminate).
  induction row as [|x row IH]; [reflexivity|].
  cbn [map]. rewrite IH. f_equal. now field.
Qed.

(** X16: the inline pooling of [DiffusionModule.forward] returns the zero
    row for every window all of whose atoms are valid, whatever their
    features: the rows it zeroes are those whose mask flag is set. *)
Theorem inline_pool_window_all_valid (r : Vec) (rows : T2) :
  Forall (fun r' => length r' = length r) (r :: rows) ->
  DiffusionModule.pool_window (r :: rows) (repeat true (length (r :: rows)))
  = Some (zero_like r).
Proof.
  intros Hall. unfold DiffusionModule.pool_window.
  rewrite masked_fill_all. cbn [bind].
  rewrite (@sum_rows_zero r r rows Hall). cbn [bind]. f_equal.
  unfold div_scalar, zero_like. rewrite map_map. apply map_ext.
  intros x. unfold Rdiv. ring.
Qed.

Lemma inline_pool_window_all_valid_witness :
  DiffusionModule.pool_window [[2]; [5]] [true; true] = Some [0].
Proof.
  apply (@inline_pool_window_all_valid [2] [[5]]). repeat constructor.
Defined.

End PoolingMore.

(** ** Algorithm 23: the stack of the diffusion transformer *)

Module DiffusionTransformerMore.
Import Tensor TensorShape DiffusionTransformer PoolingMore Samples.

(** X17: a stack of layers is the composition of its parts: running
    [l1 ++ l2] is running [l1] and then [l2] on its result, with the same
    conditioning, pairwise representation and mask; an error in [l1] is the
    error of the whole. *)
Theorem forward_app (l1 l2 : t) (noised_repr single_repr : T3) (pairwise_repr : T4)
        (mask : Mask2) :
  forward (l1 ++ l2) noised_repr single_repr pairwise_repr mask
  = bind (forward l1 noised_repr single_repr pairwise_repr mask)
         (fun y => forward l2 y single_repr pairwise_repr mask).
Proof.
  revert noised_repr. induction l1 as [|l l1 IH]; intros x; [reflexivity|].
  cbn [app forward].
  destruct (add3 x (attn l x single_repr pairwise_repr mask)) as [s|]; [|reflexivity].
  cbn [bind].
  destruct (add3 s (transition l x single_repr)) as [x'|]; [|reflexivity].
  cbn [bind]. apply IH.
Qed.

End DiffusionTransformerMore.

(** ** Algorithm 20: what a returned result of the diffusion module implies *)

Module DiffusionModuleMore.
Import Tensor DiffusionModule PoolingMore Samples.

(** X19: [DiffusionModule.forward] returns only if its checks passed: the
    window size is not 0 and divides the number of atoms of the noised
    positions, the atom mask splits into whole windows grouped by token,
    and every window holds a valid atom. *)
Theorem forward_requires (self : t) (i : inputs) (out : T3) :
  forward self i = Some out ->
  atoms_per_window self <> 0%nat /\
  (shape1 (noised_atom_pos i) mod atoms_per_window self = 0)%nat /\
  exists wm,
    view_windows (shape1 (mask i)) (atoms_per_window self) (atom_mask i) = Some wm /\
    every_window_has_valid wm = true.
Proof.
  unfold forward. intros H.
  apply DiffusionModuleFacts.bind_Some in H as (u & Hassert & H).
  apply assert_Some in Hassert. apply andb_prop in Hassert as [Hw Hmod].
  apply negb_true_iff, Nat.eqb_neq in Hw. apply Nat.eqb_eq in Hmod.
  apply DiffusionModuleFacts.bind_Some in H as (embedded & _ & H).
  apply DiffusionModuleFacts.bind_Some in H as (encoded & _ & H).
  apply DiffusionModuleFacts.bind_Some in H as (tokens & Hpool & _).
  unfold pool_tokens in Hpool.
  apply DiffusionModuleFacts.bind_Some in Hpool as (wf & _ & Hpool).
  apply DiffusionModuleFacts.bind_Some in Hpool as (wm & Hwm & Hpool).
  apply DiffusionModuleFacts.bind_Some in Hpool as (u' & Hvalid & _).
  apply assert_Some in Hvalid.
  repeat split; try assumption. now exists wm.
Qed.

Lemma forward_requires_witness :
  atoms_per_window tiny_module <> 0%nat /\
  (shape1 (noised_atom_pos tiny_inputs) mod atoms_per_window tiny_module = 0)%nat.
Proof.
  assert (H : forward tiny_module tiny_inputs = Some [[[2]; [5]]])
    by (cbn; PoolingFacts.tensor_eq).
  destruct (@forward_requires tiny_module tiny_inputs _ H) as (Hw & Hmod & _).
  now split.
Defined.

End DiffusionModuleMore.

(** ** Algorithm 7: the bias for a single centre *)

Module AtomTransformerMore.
Import AtomTransformer.
Local Open Scope Q_scope.

Lemma existsb_and_const (k : bool) (mq : list bool) :
  existsb (fun q => q && k) mq = existsb (fun q => q) mq && k.
Proof.
  induction mq as [|q mq IH]; [reflexivity|].
  cbn [existsb]. rewrite IH. destruct q, k; cbn; try reflexivity;
    destruct (existsb (fun q => q) mq); reflexivity.
Qed.

(** the reduction over the first axis of the outer conjunction: entry [j]
    is set when some query flag is set and key flag [j] is set *)
Lemma any_dim1_outer (mq mk : list bool) (j : nat) :
  (j < length mk)%nat ->
  existsb (fun row => nth j row false) (map (fun q => map (fun k => q && k) mk) mq)
  = existsb (fun q => q) mq && nth j mk false.
Proof.
  intros Hj. rewrite <- existsb_and_const. induction mq as [|q mq IH]; [reflexivity|].
  cbn [map existsb]. rewrite IH. f_equal.
  rewrite (nth_indep _ false (q && false)) by (now rewrite length_map).
  now rewrite (map_nth (fun k => q && k)).
Qed.

Lemma existsb_id_map {A : Type} (g : A -> bool) (l : list A) :
  existsb (fun q => q) (map g l) = existsb g l.
Proof. induction l as [|a l IH]; [reflexivity|]. cbn. now rewrite IH. Qed.

Lemma map_seq_nth {A B : Type} (f : A -> B) (l : list A) (d : A) :
  map (fun j => f (nth j l d)) (seq 0 (length l)) = map f l.
Proof.
  induction l as [|a l IH]; [reflexivity|].
  cbn [length seq map nth]. f_equal. rewrite <- seq_shift, map_map. exact IH.
Qed.

(** X20: with a single centre the bias is one value per position, shared by
    all queries, for every number of positions: position [m] gets 0 exactly
    when some position lies within the query half-width of the centre and
    [m] lies within the key half-width; otherwise it gets [-1e10]. *)
Theorem beta_lm_single_centre (self : t) (c : Q) (n : nat) :
  subset_centres self = [c] ->
  beta_lm self n
  = Some (map (fun m =>
                 if existsb (fun l => Qltb (Qabs (l - c)) (n_queries self / 2)) (arange n)
                    && Qltb (Qabs (m - c)) (n_keys self / 2)
                 then 0 else masked_bias)
              (arange n)).
Proof.
  intros Hc. unfold beta_lm. rewrite Hc.
  assert (Hb : forall (f : Q -> Q -> bool),
             broadcast f (arange n) [c] = Some (map (fun x => f x c) (arange n))).
  { intros f. unfold broadcast.
    assert (Hlen : length (arange n) = n)
      by (unfold arange; now rewrite length_map, length_seq).
    rewrite Hlen. cbn [length].
    destruct (n =? 1)%nat eqn:E.
    - apply Nat.eqb_eq in E. subst n. reflexivity.
    - destruct (arange n) as [|x [|y l]] eqn:Ea; reflexivity. }
  rewrite !Hb. f_equal.
  set (mq := map (fun x => Qltb (Qabs (x - c)) (n_queries self / 2)) (arange n)).
  set (mk := map (fun x => Qltb (Qabs (x - c)) (n_keys self / 2)) (arange n)).
  rewrite map_map.
  transitivity (map (fun j => if existsb (fun q => q) mq && nth j mk false
                              then 0 else masked_bias) (seq 0 (length mk))).
  { apply map_ext_in. intros j Hj. apply in_seq in Hj.
    rewrite any_dim1_outer by lia. reflexivity. }
  rewrite (map_seq_nth (fun k => if existsb (fun q => q) mq && k then 0 else masked_bias)
             mk false).
  unfold mk, mq. rewrite map_map. apply map_ext. intros m.
  now rewrite existsb_id_map.
Qed.

Lemma beta_lm_single_centre_witness :
  beta_lm (init (Some [100 # 1])) 4
  = Some [masked_bias; masked_bias; masked_bias; masked_bias].
Proof.
  rewrite (@beta_lm_single_centre (init (Some [100 # 1])) (100 # 1) 4 eq_refl).
  reflexivity.
Defined.

End AtomTransformerMore.

(** ** Algorithm 7: when the bias cannot be computed *)

Module AtomTransformerErrors.
Import AtomTransformer.

Lemma broadcast_None {A B C : Type} (f : A -> B -> C) (xs : list A) (ys : list B) :
  broadcast f xs ys = None <->
  (length xs <> length ys /\ length xs <> 1%nat /\ length ys <> 1%nat).
Proof.
  unfold broadcast. destruct (length xs =? length ys)%nat eqn:E.
  - apply Nat.eqb_eq in E. split; [discriminate | intros (H & _); contradiction].
  - apply Nat.eqb_neq in E.
    destruct xs as [|x [|x' xs]]; destruct ys as [|y [|y' ys]]; cbn [length] in *;
      split; try discriminate; try (intros (_ & H1 & H2); congruence);
      try (intros _; repeat split; (lia || congruence)).
Qed.

(** X21: [beta_lm] fails exactly when the number of positions differs from
    the number of centres and neither of the two is 1: the positions are
    aligned with the centres axis by axis, so only these shapes broadcast. *)
Theorem beta_lm_None_iff (self : t) (n : nat) :
  beta_lm self n = None <->
  (n <> length (subset_centres self) /\ n <> 1%nat /\
   length (subset_centres self) <> 1%nat).
Proof.
  unfold beta_lm.
  assert (Hlen : length (arange n) = n)
    by (unfold arange; now rewrite length_map, length_seq).
  rewrite <- Hlen at 2 3.
  rewrite <- (broadcast_None
                (fun l c => Qltb (Qabs (l - c)) (n_queries self / 2))
                (arange n) (subset_centres self)).
  destruct (broadcast (fun l c => Qltb (Qabs (l - c)) (n_queries self / 2))
                      (arange n) (subset_centres self)) as [mq|] eqn:Eq.
  - destruct (broadcast (fun m c => Qltb (Qabs (m - c)) (n_keys self / 2))
                        (arange n) (subset_centres self)) as [mk|] eqn:Ek.
    + split; discriminate.
    + apply broadcast_None in Ek.
      assert (Hq : broadcast (fun l c => Qltb (Qabs (l - c)) (n_queries self / 2))
                             (arange n) (subset_centres self) = None)
        by (now apply broadcast_None).
      congruence.
  - split; reflexivity.
Qed.

End AtomTransformerErrors.

(** ** Algorithm 4: the one-hot encoding of the nearest bin *)

Module OneHotFacts.
Import OneHot ProofNotions.
Local Open Scope Q_scope.

Lemma argmin_from_spec (l : list Q) :
  forall (pre : list Q) (best_i : nat),
    least_at pre best_i ->
    least_at (pre ++ l) (argmin_from (nth best_i pre 0) best_i (length pre) l).
Proof.
  induction l as [|y l IH]; intros pre best_i Hinv.
  - cbn [argmin_from]. now rewrite app_nil_r.
  - destruct Hinv as (Hb & Hmin & Hfirst). cbn [argmin_from].
    replace (pre ++ y :: l) with ((pre ++ [y]) ++ l) by (now rewrite <- app_assoc).
    replace (S (length pre)) with (length (pre ++ [y]))
      by (rewrite length_app; cbn; lia).
    assert (Hy : nth (length pre) (pre ++ [y]) 0 = y)
      by (rewrite app_nth2, Nat.sub_diag by lia; reflexivity).
    destruct (Qlt_le_dec y (nth best_i pre 0)) as [Hlt | Hle].
    + assert (Hinv' : least_at (pre ++ [y]) (length pre)).
      { repeat split.
        * rewrite length_app. cbn. lia.
        * intros j Hj. rewrite Hy. rewrite length_app in Hj. cbn in Hj.
          destruct (Nat.eq_dec j (length pre)) as [-> | Hne].
          -- rewrite Hy. apply Qle_refl.
          -- rewrite app_nth1 by lia. apply Qlt_le_weak.
             apply Qlt_le_trans with (nth best_i pre 0); [assumption|].
             apply Hmin. lia.
        * intros j Hj. rewrite Hy, app_nth1 by lia.
          apply Qlt_le_trans with (nth best_i pre 0); [assumption|]. now apply Hmin. }
      pose proof (IH (pre ++ [y]) (length pre) Hinv') as H.
      rewrite Hy in H. exact H.
    + assert (Hinv' : least_at (pre ++ [y]) best_i).
      { repeat split.
        * rewrite length_app. cbn. lia.
        * intros j Hj. rewrite length_app in Hj. cbn in Hj.
          rewrite (app_nth1 pre [y] 0 Hb).
          destruct (Nat.eq_dec j (length pre)) as [-> | Hne].
          -- now rewrite Hy.
          -- rewrite app_nth1 by lia. apply Hmin. lia.
        * intros j Hj. rewrite (app_nth1 pre [y] 0 Hb), app_nth1 by lia.
          now apply Hfirst. }
      pose proof (IH (pre ++ [y]) best_i Hinv') as H.
      rewrite (app_nth1 pre [y] 0 Hb) in H. exact H.
Qed.

Lemma argmin_spec (l : list Q) :
  l <> [] -> exists b, argmin l = Some b /\ least_at l b.
Proof.
  destruct l as [|y l]; [congruence|]. intros _.
  exists (argmin_from y 0 1 l). split; [reflexivity|].
  apply (@argmin_from_spec l [y] 0%nat). repeat split.
  - cbn. lia.
  - intros j Hj. cbn in Hj. assert (j = 0%nat) by lia. subst j. apply Qle_refl.
  - intros j Hj. lia.
Qed.

Lemma set_item_spec (p : list Q) (b : nat) (v : Q) :
  (b < length p)%nat ->
  exists q, set_item p b v = Some q /\ length q = length p /\
            nth b q 0 = v /\ forall j, j <> b -> nth j q 0 = nth j p 0.
Proof.
  revert b. induction p as [|a p IH]; intros b Hb; [cbn in Hb; lia|].
  destruct b as [|b].
  - exists (v :: p). repeat split. intros [|j] Hj; [congruence | reflexivity].
  - destruct (IH b ltac:(cbn in Hb; lia)) as (q & Hq & Hlen & Hnth & Hrest).
    exists (a :: q). cbn [set_item]. rewrite Hq. repeat split.
    + cbn. now f_equal.
    + exact Hnth.
    + intros [|j] Hj; [reflexivity|]. cbn [nth]. apply Hrest. congruence.
Qed.

Lemma nth_repeat_zero (n j : nat) : nth j (repeat 0 n) 0 = 0.
Proof.
  revert j. induction n as [|n IH]; intros [|j]; cbn; try reflexivity. apply IH.
Qed.

(** X22: for a non-empty tensor of bins [one_hot] returns a vector with one
    entry per bin that is 1 at one index and 0 elsewhere; the bin at that
    index is nearest to [x], and it is the first such bin.  For an empty
    tensor of bins it fails. *)
Theorem one_hot_nearest_bin (x : Q) (bins : list Q) :
  one_hot x [] = None /\
  (bins <> [] ->
   exists b p,
     one_hot x bins = Some p /\ (b < length bins)%nat /\ length p = length bins /\
     nth b p 0 = 1 /\ (forall j, j <> b -> nth j p 0 = 0) /\
     (forall j, (j < length bins)%nat ->
                Qabs (x - nth b bins 0) <= Qabs (x - nth j bins 0)) /\
     (forall j, (j < b)%nat ->
                Qabs (x - nth b bins 0) < Qabs (x - nth j bins 0))).
Proof.
  split; [reflexivity|]. intros Hne. unfold one_hot.
  set (dist := map (fun c => Qabs (x - c)) bins).
  assert (Hdist : dist <> []) by (destruct bins; [congruence | discriminate]).
  destruct (@argmin_spec dist Hdist) as (b & Hb & Hlt & Hmin & Hfirst).
  assert (Hlen : length dist = length bins) by (unfold dist; apply length_map).
  assert (Hnth : forall j, (j < length bins)%nat ->
                           nth j dist 0 = Qabs (x - nth j bins 0)).
  { intros j Hj. unfold dist.
    rewrite (nth_indep _ 0 (Qabs (x - 0))) by (now rewrite length_map).
    apply (map_nth (fun c => Qabs (x - c))). }
  rewrite Hb. rewrite Hlen in Hlt.
  destruct (@set_item_spec (repeat 0 (length bins)) b 1) as (p & Hp & Lp & Hone & Hzero);
    [now rewrite repeat_length|].
  exists b, p. repeat split; try assumption.
  - now rewrite Lp, repeat_length.
  - intros j Hj. rewrite (Hzero j Hj). apply nth_repeat_zero.
  - intros j Hj. rewrite <- !Hnth by assumption. apply Hmin. now rewrite Hlen.
  - intros j Hj. rewrite <- !Hnth by lia. now apply Hfirst.
Qed.

Lemma one_hot_nearest_bin_witness :
  one_hot (7 # 4) [0; 1; 2; 3] = Some [0; 0; 1; 0].
Proof.
  destruct (proj2 (one_hot_nearest_bin (7 # 4) [0; 1; 2; 3]) ltac:(discriminate))
    as (b & p & Hp & _).
  reflexivity.
Defined.

End OneHotFacts.

(** ** Algorithm 22 and the noise level of the single conditioning *)

Module FourierEmbeddingFacts.
Import FourierEmbedding.

(** X25: every component of the Fourier embedding lies between -1 and 1;
    there is one row per time, and each row has one component per pair of
    projection weight and bias. *)
Theorem forward_bounded (self : t) (times : list R) :
  length (forward self times) = length times /\
  Forall (fun row => length row = Nat.min (length (proj_weight self))
                                          (length (proj_bias self)) /\
                     Forall (fun v => -1 <= v <= 1) row)
         (forward self times).
Proof.
  unfold forward. split; [apply length_map|].
  apply Forall_map, Forall_forall. intros time _. split.
  - unfold rand_proj. now rewrite !length_map, length_combine.
  - apply Forall_map, Forall_forall. intros v _. apply COS_bound.
Qed.

Lemma ln_le_compat (x y : R) : 0 < x -> x <= y -> ln x <= ln y.
Proof.
  intros Hx [Hlt | ->]; [|lra]. left. now apply ln_increasing.
Qed.

(** X26: the logarithm of the noise level is only taken of a number that is
    at least [eps]: for a positive [eps] the clamped ratio is positive for
    every time, also 0 and negative ones, where the result is
    [0.25 * log eps]; for a positive [sigma_data] the result does not
    decrease when the time grows, and it is [0.25 * log (time / sigma_data)]
    whenever that ratio is at least [eps]. *)
Theorem noise_level_guarded (sigma_data eps : R) :
  0 < eps -> 0 < sigma_data ->
  (forall time, eps <= Rmax (time / sigma_data) eps) /\
  (forall time, time <= 0 -> noise_level sigma_data eps time = 1/4 * ln eps) /\
  (forall time, eps <= time / sigma_data ->
                noise_level sigma_data eps time = 1/4 * ln (time / sigma_data)) /\
  (forall t1 t2, t1 <= t2 ->
                 noise_level sigma_data eps t1 <= noise_level sigma_data eps t2).
Proof.
  intros Heps Hsigma. repeat split.
  - intros time. apply Rmax_r.
  - intros time Ht. unfold noise_level. rewrite Rmax_right; [reflexivity|].
    assert (time / sigma_data <= 0); [|lra].
    unfold Rdiv. rewrite <- (Rmult_0_l (/ sigma_data)).
    apply Rmult_le_compat_r; [|assumption]. apply Rlt_le, Rinv_0_lt_compat, Hsigma.
  - intros time Ht. unfold noise_level. now rewrite Rmax_left.
  - intros t1 t2 Ht. unfold noise_level.
    apply Rmult_le_compat_l; [lra|]. apply ln_le_compat.
    + apply Rlt_le_trans with eps; [assumption | apply Rmax_r].
    + apply Rle_max_compat_r. unfold Rdiv.
      apply Rmult_le_compat_r; [|assumption].
      apply Rlt_le, Rinv_0_lt_compat, Hsigma.
Qed.

Lemma noise_level_guarded_witness :
  noise_level 16 default_eps 0 = 1/4 * ln default_eps.
Proof.
  assert (Heps : 0 < default_eps) by (unfold default_eps; lra).
  assert (Hsigma : 0 < 16) by lra.
  exact (proj1 (proj2 (@noise_level_guarded 16 default_eps Heps Hsigma)) 0 (Rle_refl 0)).
Defined.

End FourierEmbeddingFacts.

(** ** The state of the gates and biases at initialisation *)

Module InitialisationFacts.
Import Tensor TensorShape Initialisation.

Lemma dotl_zero (d : nat) (v : Vec) : dotl (repeat 0 d) v = 0.
Proof.
  unfold dotl. revert v. induction d as [|d IH]; intros v; [reflexivity|].
  destruct v as [|x v]; [reflexivity|].
  cbn [repeat combine map fold_right]. rewrite IH. ring.
Qed.

Lemma linear_zero (rows d : nat) (v : Vec) :
  linear (repeat (repeat 0 d) rows) v = repeat 0 rows.
Proof.
  unfold linear. rewrite map_repeat. now rewrite dotl_zero.
Qed.

(** X27: at initialisation the pair bias of [AttentionPairBias] vanishes:
    with the weight of the projection to the heads zeroed, every entry of
    the bias derived from the pairwise representation is 0, whatever that
    representation is, and without an external bias the bias handed to the
    attention is all zeros. *)
Theorem attention_pair_bias_zero_at_init (heads dim_pair : nat) (pairwise_repr : T4) :
  all_zero4 (AttentionPairBias.to_attn_bias (attention_pair_bias heads dim_pair)
                                            pairwise_repr) /\
  exists bias,
    AttentionPairBias.add_attn_bias
      (AttentionPairBias.to_attn_bias (attention_pair_bias heads dim_pair) pairwise_repr)
      None = Some bias /\
    all_zero4 bias.
Proof.
  assert (Hzero : all_zero4 (AttentionPairBias.to_attn_bias
                               (attention_pair_bias heads dim_pair) pairwise_repr)).
  { unfold all_zero4, all_zero3, AttentionPairBias.to_attn_bias.
    cbn [attention_pair_bias AttentionPairBias.to_attn_bias_linear].
    rewrite repeat_length.
    apply Forall_map, Forall_forall. intros x _.
    unfold AttentionPairBias.rearrange_ijh_hij.
    apply Forall_map, Forall_forall. intros h _.
    rewrite map_map. apply Forall_map, Forall_forall. intros row _.
    rewrite map_map. apply Forall_map, Forall_forall. intros v _.
    rewrite linear_zero. apply nth_repeat. }
  split; [exact Hzero|].
  eexists. split; [reflexivity|].
  unfold all_zero4, all_zero3 in *.
  apply Forall_map. eapply Forall_impl; [|exact Hzero]. cbn. intros a Ha.
  apply Forall_map. eapply Forall_impl; [|exact Ha]. cbn. intros b Hb.
  apply Forall_map. eapply Forall_impl; [|exact Hb]. cbn. intros c Hc.
  apply Forall_map. eapply Forall_impl; [|exact Hc]. cbn. intros x ->. ring.
Qed.

Lemma combine_repeat {A B : Type} (a : A) (b : B) (n : nat) :
  combine (repeat a n) (repeat b n) = repeat (a, b) n.
Proof. induction n as [|n IH]; [reflexivity|]. cbn. now rewrite IH. Qed.

(** X28: at initialisation the gate of [ConditionWrapper] is the same for
    every conditioning vector: each of its [dim] components is the sigmoid
    of the initial bias, which for the default [-2] lies strictly between
    0 and 1/2. *)
Theorem adaln_zero_gamma_at_init (dim dim_cond : nat) (bias_init_value : R) (cond : Vec) :
  to_adaln_zero_gamma (init_adaln_zero_gamma dim dim_cond bias_init_value) cond
  = repeat (SmoothLDDTLoss.sigmoid bias_init_value) dim /\
  0 < SmoothLDDTLoss.sigmoid (-2) < 1/2.
Proof.
  split.
  - unfold to_adaln_zero_gamma, init_adaln_zero_gamma.
    cbn [gamma_weight gamma_bias].
    rewrite linear_zero, combine_repeat, map_repeat. f_equal. f_equal. ring.
  - unfold SmoothLDDTLoss.sigmoid.
    assert (He : 1 < exp (- -2)).
    { rewrite <- exp_0. apply exp_increasing. lra. }
    split.
    + apply Rdiv_lt_0_compat; lra.
    + apply Rmult_lt_reg_r with (1 + exp (- -2)); [lra|].
      unfold Rdiv. rewrite Rmult_assoc, Rinv_l by lra. lra.
Qed.

End InitialisationFacts.
